(** * backoff-decorator: exponential delays and the retry loop

    A shallow embedding of [src/backoff.ts] (its most recent revision:
    [exponentialGenerator] with [minValue] and numeric jitter, and [retry]
    rethrowing the recorded error).

    Numbers.  A JavaScript [number] is modelled by a rational ([Q]): the
    arithmetic is the exact one, without the rounding of IEEE doubles and
    without [NaN] or the infinities.  [undefined] is [None].  Where a
    property would fail on the [NaN] of [0 * Infinity], its statement
    carries [productIsNumber].

    Randomness.  [Math.random()] is an oracle: the draw it would return during
    the [k]-th pull of the generator is [rnd k]. *)

From Stdlib Require Import QArith Qabs Qround Qminmax Qpower ZArith List String Bool Lia Lqa.
Import ListNotations.
Open Scope Q_scope.

(** ** JavaScript numbers *)

(** Truthiness of a [number | undefined]: [undefined] and [0] are falsy. *)
Definition truthy (x : option Q) : bool :=
  match x with
  | None => false
  | Some q => negb (Qeq_bool q 0)
  end.

(** [x > y] on numbers. *)
Definition Qgtb (x y : Q) : bool := negb (Qle_bool x y).

(** [Math.round]: the nearest integer, ties towards +infinity. *)
Definition Math_round (x : Q) : Q := inject_Z (Qfloor (x + (1 # 2))).

(** [base ** n] for the counter [n] of the generator. *)
Definition pow (base : Q) (n : nat) : Q := base ^ Z.of_nat n.

(** The [jitter] argument: [boolean | number | undefined]. *)
Inductive Jitter : Type :=
| JUndefined
| JBool (b : bool)
| JNumber (j : Q).

(** ** exponentialGenerator *)

(** The variables of a running generator: the parameters, [minValue] being
    reassigned before the loop, and the counter [n]. *)
Record Generator : Type := mkGenerator {
  g_base : Q;
  g_factor : Q;
  g_maxValue : option Q;
  g_minValue : option Q;
  g_jitter : Jitter;
  g_n : nat
}.

(** [if (minValue && maxValue && minValue > maxValue) minValue = maxValue] *)
Definition handleContradiction (maxValue minValue : option Q) : option Q :=
  match minValue, maxValue with
  | Some mn, Some mx =>
      if truthy minValue && truthy maxValue && Qgtb mn mx
      then maxValue else minValue
  | _, _ => minValue
  end.

(** [value = maxValue ? Math.min(maxValue, value) : value] *)
Definition ceiling (maxValue : option Q) (value : Q) : Q :=
  match maxValue with
  | Some mx => if truthy maxValue then Qmin mx value else value
  | None => value
  end.

(** [value = minValue ? Math.max(minValue, value) : value] *)
Definition floor (minValue : option Q) (value : Q) : Q :=
  match minValue with
  | Some mn => if truthy minValue then Qmax mn value else value
  | None => value
  end.

(** The value of an iteration before the jitter branches. *)
Definition preJitter (g : Generator) : Q :=
  floor (g_minValue g)
        (ceiling (g_maxValue g) (g_factor g * pow (g_base g) (g_n g))).

(** The jitter branches; [random] is the draw of [Math.random()]. *)
Definition applyJitter (jitter : Jitter) (random value : Q) : Q :=
  match jitter with
  | JBool true => Math_round (random * value)
  | JNumber j =>
      if Qle_bool 0 j && Qle_bool j 1
      then Math_round ((1 - j * random) * value)
      else value
  | _ => value
  end.

(** The generator as created by the call. *)
Definition exponentialGenerator
    (base factor : Q) (maxValue minValue : option Q) (jitter : Jitter)
    : Generator :=
  mkGenerator base factor maxValue (handleContradiction maxValue minValue)
              jitter 0.

(** One [next()]: the value yielded, and the generator after [n++]. *)
Definition next (random : Q) (g : Generator) : Q * Generator :=
  (applyJitter (g_jitter g) random (preJitter g),
   mkGenerator (g_base g) (g_factor g) (g_maxValue g) (g_minValue g)
               (g_jitter g) (S (g_n g))).

(** The value of the [k]-th pull (from 0) of [g]. *)
Fixpoint pull (rnd : nat -> Q) (g : Generator) (k : nat) : Q :=
  match k with
  | O => fst (next (rnd O) g)
  | S k' => pull (fun i => rnd (S i)) (snd (next (rnd O) g)) k'
  end.

(** The first [k] values pulled from [g]. *)
Fixpoint take (rnd : nat -> Q) (g : Generator) (k : nat) : list Q :=
  match k with
  | O => []
  | S k' =>
      let (v, g') := next (rnd O) g in
      v :: take (fun i => rnd (S i)) g' k'
  end.

(** The deterministic value at exponent [k]: what the generator created from
    these arguments computes before jitter in its [k]-th iteration. *)
Definition deterministicValue
    (base factor : Q) (maxValue minValue : option Q) (k : nat) : Q :=
  floor (handleContradiction maxValue minValue)
        (ceiling maxValue (factor * pow base k)).

(** ** retry *)

Section Retry.

(** What the target resolves with, what it throws, its argument list, and the
    state of whatever the target reads and writes. *)
Context {Result Error Args World : Type}.

(** How one awaited invocation of the target ends. *)
Inductive Completion : Type :=
| Returns (result : Result)
| Throws (err : Error).

(** [thisArg]: [null] is [None]; an object either has a truthy [emit], taken
    to be an event emitter's, which returns normally, or has none. *)
Record Receiver : Type := mkReceiver { hasEmit : bool }.

(** [targetFunction]: its [name], and what [apply(thisArg, args)] does. *)
Record TargetFunction : Type := mkTargetFunction {
  name : string;
  apply : option Receiver -> Args -> World -> Completion * World
}.

Definition PredicateFunction : Type := Error -> Args -> bool.

(** The options; an absent property is [None] ([JUndefined] for the jitter).
    [sleepFunction] is not a field: calling it, whichever function is
    configured, is the effect [Sleep]. *)
Record BackoffOptions : Type := mkBackoffOptions {
  maxRetries : option Q;
  maxDelayMs : option Q;
  minDelayMs : option Q;
  base : option Q;
  backoffFactor : option Q;
  predicate : option PredicateFunction;
  fullJitter : Jitter
}.

(** Destructuring with a default: [{ x = d } = options]. *)
Definition orDefault (x : option Q) (d : Q) : Q :=
  match x with
  | Some v => v
  | None => d
  end.

(** What the loop does that its caller can observe, in order. *)
Inductive Effect : Type :=
| Invoke (thisArg : option Receiver) (args : Args)
| Emit (event : string) (targetName : string) (args : Args) (value : Q)
| Sleep (ms : Q).

(** How the promise returned by [retry] settles. *)
Inductive Outcome : Type :=
| Resolved (result : Result)
| Rejected (err : Error).

Record Run : Type := mkRun {
  outcome : Outcome;
  trace : list Effect;
  world : World
}.

(** [thisArg && thisArg.emit] *)
Definition canEmit (thisArg : option Receiver) : bool :=
  match thisArg with
  | Some r => hasEmit r
  | None => false
  end.

(** [if (thisArg && thisArg.emit) thisArg.emit(event, targetFunction.name, args, value)] *)
Definition emit (thisArg : option Receiver) (event : string)
    (f : TargetFunction) (args : Args) (value : Q) : list Effect :=
  if canEmit thisArg then [Emit event (name f) args value] else [].

(** [!predicate || !predicate(err, args)] *)
Definition declines (p : option PredicateFunction) (err : Error) (args : Args)
    : bool :=
  match p with
  | None => true
  | Some pred => negb (pred err args)
  end.

(** The predicate is absent, or returns false for this error and the
    arguments of the call. *)
Definition notRetried (options : BackoffOptions) (args : Args) (err : Error)
    : Prop :=
  predicate options = None
  \/ exists pred, predicate options = Some pred /\ pred err args = false.

(** The effects [es] happen, then the rest of the loop runs. *)
Definition after (es : list Effect) (rest : option Run) : option Run :=
  match rest with
  | Some r => Some (mkRun (outcome r) (es ++ trace r) (world r))
  | None => None
  end.

(** The [for ... of] loop from one iteration on.  [numRetries] is the counter
    before the iteration, [gen] the generator before its pull; [None] when
    [fuel] iterations were not enough.  [originalError] is assigned in the
    [catch] of the very iteration that may throw it, so it is bound there. *)
Fixpoint retryLoop (fuel : nat) (maxRetries : Q) (p : option PredicateFunction)
    (f : TargetFunction) (thisArg : option Receiver) (args : Args)
    (rnd : nat -> Q) (gen : Generator) (numRetries : Z) (w : World)
    : option Run :=
  match fuel with
  | O => None
  | S fuel' =>
      let (delayMs, gen') := next (rnd O) gen in
      let (completion, w') := apply f thisArg args w in
      match completion with
      | Returns result =>
          Some (mkRun (Resolved result)
                      (Invoke thisArg args
                       :: emit thisArg "retries" f args (inject_Z numRetries))
                      w')
      | Throws err =>
          let originalError := err in
          if declines p err args then
            Some (mkRun (Rejected err) [Invoke thisArg args] w')
          else
            let numRetries' := (numRetries + 1)%Z in
            if Qgtb (inject_Z numRetries') maxRetries then
              Some (mkRun (Rejected originalError) [Invoke thisArg args] w')
            else
              after (Invoke thisArg args
                     :: emit thisArg "throttle" f args delayMs ++ [Sleep delayMs])
                    (retryLoop fuel' maxRetries p f thisArg args
                               (fun i => rnd (S i)) gen' numRetries' w')
      end
  end.

(** Iterations that suffice: the counter starts at 1 and an iteration is
    followed by another only while the incremented counter is at most
    [maxRetries]. *)
Definition enoughFuel (maxRetries : Q) : nat := S (Z.to_nat (Qfloor maxRetries)).

Definition retry (options : BackoffOptions) (targetFunction : TargetFunction)
    (thisArg : option Receiver) (args : Args) (rnd : nat -> Q) (w : World)
    : option Run :=
  let base := orDefault (base options) 2 in
  let maxRetries := orDefault (maxRetries options) 1 in
  let backoffFactor := orDefault (backoffFactor options) 50 in
  retryLoop (enoughFuel maxRetries) maxRetries (predicate options)
            targetFunction thisArg args rnd
            (exponentialGenerator base backoffFactor (maxDelayMs options)
                                  (minDelayMs options) (fullJitter options))
            1%Z w.

(** The state of the target after [k] invocations from [w]. *)
Fixpoint worldAfter (f : TargetFunction) (thisArg : option Receiver)
    (args : Args) (k : nat) (w : World) : World :=
  match k with
  | O => w
  | S k' => worldAfter f thisArg args k' (snd (apply f thisArg args w))
  end.

(** How the [k]-th invocation (from 0) of the target ends, from [w]. *)
Definition attempt (f : TargetFunction) (thisArg : option Receiver)
    (args : Args) (k : nat) (w : World) : Completion :=
  fst (apply f thisArg args (worldAfter f thisArg args k w)).

(** Readings of a trace. *)
Definition isInvoke (e : Effect) : bool :=
  match e with Invoke _ _ => true | _ => false end.

Definition isEmit (e : Effect) : bool :=
  match e with Emit _ _ _ _ => true | _ => false end.

Definition invocations (t : list Effect) : nat := List.length (filter isInvoke t).

Definition sleeps (t : list Effect) : list Q :=
  flat_map (fun e => match e with Sleep ms => [ms] | _ => [] end) t.

(** The values emitted under the name [event]. *)
Definition emitted (event : string) (t : list Effect) : list Q :=
  flat_map (fun e => match e with
                     | Emit ev _ _ v => if String.eqb ev event then [v] else []
                     | _ => []
                     end) t.

End Retry.

Arguments Completion : clear implicits.
Arguments TargetFunction : clear implicits.
Arguments PredicateFunction : clear implicits.
Arguments BackoffOptions : clear implicits.
Arguments Effect : clear implicits.
Arguments Outcome : clear implicits.
Arguments Run : clear implicits.

(** ** The earlier revision kept in the same file

    [src/backoff.ts] still carries the revision that preceded the one above
    (its lines 1-155): the generator without the handling of contradicting
    bounds and with a boolean [fullJitter], and the loop that gives up with a
    [RetryError] of its own and emits no ["throttle"]. *)

Module Legacy.

(** Truthiness of the jitter argument: [if (fullJitter)]. *)
Definition jitterTruthy (j : Jitter) : bool :=
  match j with
  | JUndefined => false
  | JBool b => b
  | JNumber q => negb (Qeq_bool q 0)
  end.

(** [(!maxValue || current < maxValue) ? current : maxValue] *)
Definition ceiling (maxValue : option Q) (current : Q) : Q :=
  match maxValue with
  | Some mx =>
      if negb (truthy maxValue) || Qgtb mx current then current else mx
  | None => current
  end.

Definition preJitter (g : Generator) : Q :=
  floor (g_minValue g)
        (ceiling (g_maxValue g) (g_factor g * pow (g_base g) (g_n g))).

Definition exponentialGenerator
    (base factor : Q) (maxValue minValue : option Q) (fullJitter : Jitter)
    : Generator :=
  mkGenerator base factor maxValue minValue fullJitter 0.

Definition next (random : Q) (g : Generator) : Q * Generator :=
  ((if jitterTruthy (g_jitter g)
    then Math_round (random * preJitter g)
    else preJitter g),
   mkGenerator (g_base g) (g_factor g) (g_maxValue g) (g_minValue g)
               (g_jitter g) (S (g_n g))).

(** The value of the [k]-th pull (from 0) of [g]. *)
Fixpoint pull (rnd : nat -> Q) (g : Generator) (k : nat) : Q :=
  match k with
  | O => fst (next (rnd O) g)
  | S k' => pull (fun i => rnd (S i)) (snd (next (rnd O) g)) k'
  end.

Section Retry.

Context {Result Error Args World : Type}.

(** What the promise rejects with: what the target threw, or
    [new RetryError(`Maximum of ${maxRetries} retries reached when calling
    target ${targetFunction.name}`)]. *)
Inductive Thrown : Type :=
| Original (err : Error)
| RetryError (maxRetries : Q) (targetName : string).

Inductive Outcome : Type :=
| Resolved (result : Result)
| Rejected (thrown : Thrown).

Record Run : Type := mkRun {
  outcome : Outcome;
  trace : list (Effect Args);
  world : World
}.

Definition after (es : list (Effect Args)) (rest : option Run) : option Run :=
  match rest with
  | Some r => Some (mkRun (outcome r) (es ++ trace r) (world r))
  | None => None
  end.

Fixpoint retryLoop (fuel : nat) (maxRetries : Q)
    (p : option (PredicateFunction Error Args))
    (f : TargetFunction Result Error Args World)
    (thisArg : option Receiver) (args : Args)
    (rnd : nat -> Q) (gen : Generator) (numRetries : Z) (w : World)
    : option Run :=
  match fuel with
  | O => None
  | S fuel' =>
      let (delayMs, gen') := next (rnd O) gen in
      let (completion, w') := apply f thisArg args w in
      match completion with
      | Returns result =>
          Some (mkRun (Resolved result)
                      (Invoke thisArg args
                       :: emit thisArg "retries" f args (inject_Z numRetries))
                      w')
      | Throws err =>
          if declines p err args then
            Some (mkRun (Rejected (Original err)) [Invoke thisArg args] w')
          else
            let numRetries' := (numRetries + 1)%Z in
            if Qgtb (inject_Z numRetries') maxRetries then
              Some (mkRun (Rejected (RetryError maxRetries (name f)))
                          [Invoke thisArg args] w')
            else
              after [Invoke thisArg args; Sleep delayMs]
                    (retryLoop fuel' maxRetries p f thisArg args
                               (fun i => rnd (S i)) gen' numRetries' w')
      end
  end.

Definition retry (options : BackoffOptions Error Args)
    (targetFunction : TargetFunction Result Error Args World)
    (thisArg : option Receiver) (args : Args) (rnd : nat -> Q) (w : World)
    : option Run :=
  let base := orDefault (base options) 2 in
  let maxRetries := orDefault (maxRetries options) 1 in
  let backoffFactor := orDefault (backoffFactor options) 50 in
  retryLoop (enoughFuel maxRetries) maxRetries (predicate options)
            targetFunction thisArg args rnd
            (exponentialGenerator base backoffFactor (maxDelayMs options)
                                  (minDelayMs options) (fullJitter options))
            1%Z w.

End Retry.

Arguments Thrown : clear implicits.
Arguments Outcome : clear implicits.
Arguments Run : clear implicits.

End Legacy.

(** ** The first revision of the generator

    [exponentialGenerator(factor, maxValue, fullJitter)] of the oldest
    revision of [backoff.ts] in the repository (carried after the text of
    [README.md]): the base is 2, there is no floor, and the jittered value is
    not rounded. *)

Module Original.

Record Generator : Type := mkGenerator {
  g_factor : Q;
  g_maxValue : option Q;
  g_fullJitter : Jitter;
  g_n : nat
}.

Definition exponentialGenerator
    (factor : Q) (maxValue : option Q) (fullJitter : Jitter) : Generator :=
  mkGenerator factor maxValue fullJitter 0.

(** [const current = factor * (2 ** n);
     let value = (!maxValue || current < maxValue) ? current : maxValue;
     if (fullJitter) value = Math.random() * value;] *)
Definition next (random : Q) (g : Generator) : Q * Generator :=
  let current := g_factor g * pow 2 (g_n g) in
  let value := Legacy.ceiling (g_maxValue g) current in
  ((if Legacy.jitterTruthy (g_fullJitter g) then random * value else value),
   mkGenerator (g_factor g) (g_maxValue g) (g_fullJitter g) (S (g_n g))).

Fixpoint pull (rnd : nat -> Q) (g : Generator) (k : nat) : Q :=
  match k with
  | O => fst (next (rnd O) g)
  | S k' => pull (fun i => rnd (S i)) (snd (next (rnd O) g)) k'
  end.

End Original.

(** ** The decorators *)

Section Decorators.

Context {Result Error Args World : Type}.

(** [this] of a decorated method: the object itself, as [retry] sees it, and
    its [backoffOptions] property when there is one. *)
Record Instance : Type := mkInstance {
  self : Receiver;
  backoffOptions : option (BackoffOptions Error Args)
}.

(** How a call of a method decorated with [backoff] ends: as [retry] does, or
    with the [TypeError] of reading [backoffOptions] off [undefined] or of
    destructuring options that are [undefined]. *)
Inductive Called : Type :=
| Settles (run : Run Result Error Args World)
| RejectsWithTypeError.

(** [backoffWith(backoffOptions)] applied to the descriptor of
    [targetFunction]: the new [descriptor.value], called on [this] with
    [args]. *)
Definition backoffWith (backoffOptions : BackoffOptions Error Args)
    (targetFunction : TargetFunction Result Error Args World)
    (this : option Receiver) (args : Args) (rnd : nat -> Q) (w : World)
    : option (Run Result Error Args World) :=
  retry backoffOptions targetFunction this args rnd w.

(** [backoff] applied to the descriptor of [targetFunction]: the options are
    read off [this] at each call. *)
Definition backoff (targetFunction : TargetFunction Result Error Args World)
    (this : option Instance) (args : Args) (rnd : nat -> Q) (w : World)
    : option Called :=
  match this with
  | Some i =>
      match backoffOptions i with
      | Some options =>
          option_map Settles
            (retry options targetFunction (Some (self i)) args rnd w)
      | None => Some RejectsWithTypeError
      end
  | None => Some RejectsWithTypeError
  end.

End Decorators.

Arguments Instance : clear implicits.
Arguments Called : clear implicits.

(** ** Concrete targets, as in the tests *)

(** [add] of the decorator test: counts its calls in [numCalled], throws
    ["bar"] during the first [numErrors] calls, then returns [x + 10]. *)
Definition flaky (numErrors : nat)
    : TargetFunction Q string (list Q) nat :=
  mkTargetFunction "add"
    (fun _ args numCalled =>
       let numCalled := S numCalled in
       if Nat.leb numCalled numErrors
       then (Throws "bar"%string, numCalled)
       else (Returns (hd 0 args + 10), numCalled)).

(** [matchingCall] of the same test: counts its calls and always throws; the
    error carries the number of the call, so that errors can be told apart. *)
Definition faultyCall : TargetFunction Q nat (list Q) nat :=
  mkTargetFunction "matchingCall"
    (fun _ _ numCalled => (Throws (S numCalled), S numCalled)).

Definition alwaysTrue {Error Args : Type} : PredicateFunction Error Args :=
  fun _ _ => true.

Definition alwaysFalse {Error Args : Type} : PredicateFunction Error Args :=
  fun _ _ => false.

(** An event emitter as [thisArg]. *)
Definition emitter : option Receiver := Some (mkReceiver true).

(** [{ maxRetries, predicate }], every other option absent. *)
Definition optionsOf {Error Args : Type} (maxRetries : option Q)
    (predicate : option (PredicateFunction Error Args))
    : BackoffOptions Error Args :=
  mkBackoffOptions maxRetries None None None None predicate JUndefined.

(** Random sources that always draw [0], and always [1/2]. *)
Definition noRandom : nat -> Q := fun _ => 0.

Definition halfRandom : nat -> Q := fun _ => 1 # 2.

(** The generator [retry] creates from its options. *)
Definition generatorOf {Error Args : Type} (options : BackoffOptions Error Args)
    : Generator :=
  exponentialGenerator (orDefault (base options) 2)
    (orDefault (backoffFactor options) 50) (maxDelayMs options)
    (minDelayMs options) (fullJitter options).

(** How [retry] settles when the last invocation ended with [c]. *)
Definition settled {Result Error : Type} (c : Completion Result Error)
    : Outcome Result Error :=
  match c with
  | Returns result => Resolved result
  | Throws err => Rejected err
  end.

(** [factor * (base ** n)] is a number at every [n].  In the source the
    power is a double: it overflows to [Infinity] when [|base| > 1] and [n] is
    large, and [0 * Infinity] is [NaN], which [Math.min] and [Math.max] hand
    on.  With a [factor] other than 0, or [|base| <= 1], the product is never
    [NaN], and comparisons on it go as on the exact value. *)
Definition productIsNumber (factor base : Q) : Prop :=
  ~ factor == 0 \/ Qabs base <= 1.

(** ** retry, with an [emit] that may throw

    [thisArg.emit('retries', ...)] is called inside the [try]: what it throws
    is caught and handled as a failure of the target.
    [thisArg.emit('throttle', ...)] is called outside: what it throws rejects
    the promise.  [onEmit event name args value] is what the call does:
    [None] when it returns, [Some thrown] when it throws. *)

Section RetryWithEmit.

Context {Result Error Args World : Type}.

Definition EmitFunction : Type := string -> string -> Args -> Q -> option Error.

(** The [try] block after the target has ended with [completion]: the
    effects of the block, and how the block ends. *)
Definition tryBlock (f : TargetFunction Result Error Args World)
    (thisArg : option Receiver) (onEmit : EmitFunction) (args : Args)
    (numRetries : Z) (completion : Completion Result Error)
    : list (Effect Args) * Completion Result Error :=
  match completion with
  | Returns result =>
      if canEmit thisArg then
        ([Emit "retries" (name f) args (inject_Z numRetries)],
         match onEmit "retries"%string (name f) args (inject_Z numRetries) with
         | Some thrown => Throws thrown
         | None => Returns result
         end)
      else ([], Returns result)
  | Throws err => ([], Throws err)
  end.

Fixpoint retryLoopE (fuel : nat) (maxRetries : Q)
    (p : option (PredicateFunction Error Args))
    (f : TargetFunction Result Error Args World)
    (thisArg : option Receiver) (onEmit : EmitFunction) (args : Args)
    (rnd : nat -> Q) (gen : Generator) (numRetries : Z) (w : World)
    : option (Run Result Error Args World) :=
  match fuel with
  | O => None
  | S fuel' =>
      let (delayMs, gen') := next (rnd O) gen in
      let (completion, w') := apply f thisArg args w in
      let (emitted, ended) :=
        tryBlock f thisArg onEmit args numRetries completion in
      match ended with
      | Returns result =>
          Some (mkRun (Resolved result) (Invoke thisArg args :: emitted) w')
      | Throws err =>
          let originalError := err in
          if declines p err args then
            Some (mkRun (Rejected err) (Invoke thisArg args :: emitted) w')
          else
            let numRetries' := (numRetries + 1)%Z in
            if Qgtb (inject_Z numRetries') maxRetries then
              Some (mkRun (Rejected originalError)
                          (Invoke thisArg args :: emitted) w')
            else if canEmit thisArg then
              match onEmit "throttle"%string (name f) args delayMs with
              | Some thrown =>
                  Some (mkRun (Rejected thrown)
                              (Invoke thisArg args
                               :: emitted
                                  ++ [Emit "throttle" (name f) args delayMs])
                              w')
              | None =>
                  after (Invoke thisArg args
                         :: emitted
                            ++ [Emit "throttle" (name f) args delayMs;
                                Sleep delayMs])
                        (retryLoopE fuel' maxRetries p f thisArg onEmit args
                                    (fun i => rnd (S i)) gen' numRetries' w')
              end
            else
              after (Invoke thisArg args :: emitted ++ [Sleep delayMs])
                    (retryLoopE fuel' maxRetries p f thisArg onEmit args
                                (fun i => rnd (S i)) gen' numRetries' w')
      end
  end.

Definition retryE (options : BackoffOptions Error Args)
    (targetFunction : TargetFunction Result Error Args World)
    (thisArg : option Receiver) (onEmit : EmitFunction) (args : Args)
    (rnd : nat -> Q) (w : World)
    : option (Run Result Error Args World) :=
  let maxRetries := orDefault (maxRetries options) 1 in
  retryLoopE (enoughFuel maxRetries) maxRetries (predicate options)
             targetFunction thisArg onEmit args rnd (generatorOf options)
             1%Z w.

(** An [emit] that returns at every call. *)
Definition quietEmit : EmitFunction :=
  fun _ _ _ _ => None.

(** Every call of [emit] returns. *)
Definition emitReturns (onEmit : EmitFunction) : Prop :=
  forall event targetName a value, onEmit event targetName a value = None.

End RetryWithEmit.

Arguments EmitFunction : clear implicits.



(** * Properties *)

(** ** Numbers *)

Lemma truthy_Some (q : Q) : truthy (Some q) = true <-> ~ q == 0.
Proof.
  unfold truthy. rewrite negb_true_iff. split.
  - intros H. now apply Qeq_bool_neq.
  - intros H. destruct (Qeq_bool q 0) eqn:E; [|reflexivity].
    apply Qeq_bool_iff in E. contradiction.
Qed.

Lemma truthy_zero (q : Q) : q == 0 -> truthy (Some q) = false.
Proof.
  intros H. unfold truthy. apply Qeq_bool_iff in H. now rewrite H.
Qed.

Lemma Qgtb_true (x y : Q) : Qgtb x y = true <-> y < x.
Proof.
  unfold Qgtb. rewrite negb_true_iff. split.
  - intros H. apply Qnot_le_lt. intros L.
    apply Qle_bool_iff in L. congruence.
  - intros H. destruct (Qle_bool x y) eqn:E; [|reflexivity].
    apply Qle_bool_iff in E. apply Qle_not_lt in E. contradiction.
Qed.

Lemma Qgtb_false (x y : Q) : Qgtb x y = false <-> x <= y.
Proof.
  unfold Qgtb. rewrite negb_false_iff. apply Qle_bool_iff.
Qed.

Lemma Math_round_le (x y : Q) : x <= y -> Math_round x <= Math_round y.
Proof.
  intros H. unfold Math_round. rewrite <- Zle_Qle.
  apply Qfloor_resp_le. lra.
Qed.

Lemma Math_round_comp (x y : Q) : x == y -> Math_round x = Math_round y.
Proof.
  intros H. unfold Math_round. f_equal. apply Qfloor_comp. lra.
Qed.

Lemma Math_round_integer (z : Z) : Math_round (inject_Z z) = inject_Z z.
Proof.
  unfold Math_round. f_equal.
  assert (L : (z <= Qfloor (inject_Z z + (1 # 2)))%Z).
  { rewrite <- (Qfloor_Z z) at 1. apply Qfloor_resp_le. lra. }
  assert (U : (Qfloor (inject_Z z + (1 # 2)) < z + 1)%Z).
  { rewrite Zlt_Qlt. rewrite inject_Z_plus.
    pose proof (Qfloor_le (inject_Z z + (1 # 2))) as F.
    change (inject_Z 1) with 1. lra. }
  lia.
Qed.

(** The counter compared with [maxRetries], through the integer part. *)
Lemma counter_exceeds (n : Z) (maxRetries : Q) :
  Qgtb (inject_Z n) maxRetries = true <-> (Qfloor maxRetries < n)%Z.
Proof.
  rewrite Qgtb_true. split.
  - intros H. rewrite Zlt_Qlt.
    apply Qle_lt_trans with maxRetries; [apply Qfloor_le | exact H].
  - intros H. apply Qlt_le_trans with (inject_Z (Qfloor maxRetries + 1)).
    + apply Qlt_floor.
    + rewrite <- Zle_Qle. lia.
Qed.

Lemma counter_within (n : Z) (maxRetries : Q) :
  Qgtb (inject_Z n) maxRetries = false <-> (n <= Qfloor maxRetries)%Z.
Proof.
  destruct (Qgtb (inject_Z n) maxRetries) eqn:E.
  - apply counter_exceeds in E. split; [discriminate | lia].
  - split; [|reflexivity]. intros _.
    destruct (Z_le_gt_dec n (Qfloor maxRetries)) as [L|G]; [exact L|].
    assert (Qgtb (inject_Z n) maxRetries = true) by (apply counter_exceeds; lia).
    congruence.
Qed.

(** ** The generator *)

(** The counter and the parameters after a pull. *)
Lemma next_state (random : Q) (g : Generator) :
  snd (next random g)
  = mkGenerator (g_base g) (g_factor g) (g_maxValue g) (g_minValue g)
                (g_jitter g) (S (g_n g)).
Proof. reflexivity. Qed.

(** The [k]-th pull computes with the exponent [n + k] and the [k]-th draw. *)
Lemma pull_value (g : Generator) :
  forall (k : nat) (rnd : nat -> Q),
    pull rnd g k
    = applyJitter (g_jitter g) (rnd k)
        (floor (g_minValue g)
           (ceiling (g_maxValue g)
              (g_factor g * pow (g_base g) (g_n g + k)))).
Proof.
  intros k. revert g.
  induction k as [|k IH]; intros g rnd.
  - cbn [pull next fst]. unfold preJitter. now rewrite Nat.add_0_r.
  - cbn [pull]. rewrite IH, next_state. cbn [g_base g_factor g_maxValue
      g_minValue g_jitter g_n]. now rewrite Nat.add_succ_r.
Qed.

Lemma pull_exponentialGenerator
    (base factor : Q) (maxValue minValue : option Q) (jitter : Jitter)
    (rnd : nat -> Q) (k : nat) :
  pull rnd (exponentialGenerator base factor maxValue minValue jitter) k
  = applyJitter jitter (rnd k)
      (deterministicValue base factor maxValue minValue k).
Proof.
  rewrite pull_value. reflexivity.
Qed.


Lemma ceiling_le (mx value : Q) :
  ~ mx == 0 -> ceiling (Some mx) value <= mx.
Proof.
  intros H. unfold ceiling. apply truthy_Some in H. rewrite H.
  apply Q.le_min_l.
Qed.

Lemma ceiling_absent (z value : Q) :
  z == 0 -> ceiling (Some z) value = value.
Proof.
  intros H. unfold ceiling. now rewrite (truthy_zero z H).
Qed.

Lemma floor_absent (z value : Q) :
  z == 0 -> floor (Some z) value = value.
Proof.
  intros H. unfold floor. now rewrite (truthy_zero z H).
Qed.

Lemma floor_le (mn : option Q) (value bound : Q) :
  value <= bound ->
  (forall m, mn = Some m -> m <= bound) ->
  floor mn value <= bound.
Proof.
  intros Hv Hm. unfold floor. destruct mn as [m|]; [|exact Hv].
  destruct (truthy (Some m)); [|exact Hv].
  apply Q.max_lub; [now apply Hm | exact Hv].
Qed.

(** After the handling of contradicting bounds the floor is at most a
    truthy ceiling. *)
Lemma handleContradiction_le (mx : Q) (minValue : option Q) (m : Q) :
  ~ mx == 0 ->
  handleContradiction (Some mx) minValue = Some m ->
  truthy (Some m) = true ->
  m <= mx.
Proof.
  intros Hmx H Ht. unfold handleContradiction in H.
  destruct minValue as [mn|]; [|discriminate].
  apply truthy_Some in Hmx.
  destruct (truthy (Some mn)) eqn:Tn.
  - rewrite Hmx in H. cbn [andb] in H.
    destruct (Qgtb mn mx) eqn:G.
    + injection H as <-. apply Qle_refl.
    + injection H as <-. now apply Qgtb_false.
  - cbn [andb] in H. injection H as <-. congruence.
Qed.

(** Tests of [exponentialGenerator] in [test/backoff_test.ts]. *)
Example returns_powers_of_two :
  take noRandom (exponentialGenerator 2 1 (Some 1000) (Some 0) (JBool false)) 10
  = [1; 2; 4; 8; 16; 32; 64; 128; 256; 512].
Proof. vm_compute. reflexivity. Qed.

Example returns_maxValue_when_above_it :
  take noRandom (exponentialGenerator 2 1 (Some 32) (Some 0) (JBool false)) 10
  = [1; 2; 4; 8; 16; 32; 32; 32; 32; 32].
Proof. vm_compute. reflexivity. Qed.

Example returns_minValue_when_below_it :
  take noRandom (exponentialGenerator 2 1 (Some 32) (Some 10) (JBool false)) 10
  = [10; 10; 10; 10; 16; 32; 32; 32; 32; 32].
Proof. vm_compute. reflexivity. Qed.

Example gives_priority_to_max :
  pull noRandom
       (exponentialGenerator 1 1000 (Some 500) (Some 100000) (JBool false)) 0
  = 500.
Proof. vm_compute. reflexivity. Qed.

(** C4.  Without bounds and with [jitter = false], the [n]-th value pulled
    from [exponentialGenerator(base, factor, undefined, undefined, false)] is
    [factor * base^n] itself, for every [n], [base] and [factor]: nothing is
    clamped, drawn or rounded. *)
Theorem exponentialGenerator_unclamped
    (base factor : Q) (rnd : nat -> Q) (n : nat) :
  pull rnd (exponentialGenerator base factor None None (JBool false)) n
  = factor * base ^ Z.of_nat n.
Proof.
  rewrite pull_exponentialGenerator. reflexivity.
Qed.

(** C5, as stated, fails: with [maxValue = 0] the generator of base 2 and
    factor 1 yields 2 at its second pull, above the ceiling. *)
Lemma ceiling_zero_is_exceeded :
  pull noRandom (exponentialGenerator 2 1 (Some 0) None (JBool false)) 1 = 2
  /\ ~ pull noRandom (exponentialGenerator 2 1 (Some 0) None (JBool false)) 1
       <= 0.
Proof.
  split; [vm_compute; reflexivity|].
  vm_compute. intros H. apply H. reflexivity.
Qed.

(** C5, amended.  When [maxValue] is set to a number other than 0 and
    [factor * base^n] is a number (the factor is not 0, or [|base| <= 1], so
    that no [0 * Infinity] arises), the value of every pull before jitter is
    at most [maxValue]: each pull is the jitter step applied to a
    deterministic value that is at most [maxValue], and without jitter the
    value pulled itself is. *)
Theorem prejitter_at_most_maxValue
    (base factor mx : Q) (minValue : option Q) (jitter : Jitter)
    (rnd : nat -> Q) (k : nat) :
  ~ mx == 0 ->
  productIsNumber factor base ->
  pull rnd (exponentialGenerator base factor (Some mx) minValue jitter) k
  = applyJitter jitter (rnd k)
      (deterministicValue base factor (Some mx) minValue k)
  /\ deterministicValue base factor (Some mx) minValue k <= mx
  /\ pull rnd (exponentialGenerator base factor (Some mx) minValue (JBool false)) k
     <= mx.
Proof.
  intros Hmx _.
  assert (B : deterministicValue base factor (Some mx) minValue k <= mx).
  { unfold deterministicValue.
    destruct (handleContradiction (Some mx) minValue) as [m|] eqn:E.
    - unfold floor. destruct (truthy (Some m)) eqn:T.
      + apply Q.max_lub.
        * now apply (handleContradiction_le mx minValue m).
        * now apply ceiling_le.
      + now apply ceiling_le.
    - cbn [floor]. now apply ceiling_le. }
  split; [apply pull_exponentialGenerator|].
  split; [exact B|].
  rewrite pull_exponentialGenerator. exact B.
Qed.

Lemma prejitter_at_most_maxValue_witness :
  ~ 32 == 0
  /\ productIsNumber 1 2
  /\ pull noRandom (exponentialGenerator 2 1 (Some 32) (Some 10) (JBool false)) 7
     <= 32.
Proof.
  assert (H1 : ~ 32 == 0) by (intros H; discriminate H).
  assert (H2 : productIsNumber 1 2) by (left; intros H; discriminate H).
  split; [exact H1|]. split; [exact H2|].
  apply (prejitter_at_most_maxValue 2 1 32 (Some 10) (JBool false) noRandom 7
           H1 H2).
Defined.

(** C6, as stated, fails: with [minValue = 5] and [maxValue = 0] both bounds
    are set and contradict each other, yet the floor stays 5 and the first
    value is 5, above [maxValue]. *)
Lemma floor_above_zero_ceiling_is_kept :
  g_minValue (exponentialGenerator 2 1 (Some 0) (Some 5) (JBool false)) = Some 5
  /\ pull noRandom (exponentialGenerator 2 1 (Some 0) (Some 5) (JBool false)) 0
     = 5
  /\ ~ pull noRandom (exponentialGenerator 2 1 (Some 0) (Some 5) (JBool false)) 0
       <= 0.
Proof.
  split; [reflexivity|]. split; [vm_compute; reflexivity|].
  vm_compute. intros H. apply H. reflexivity.
Qed.

(** C6, amended.  When [minValue] and [maxValue] are both set to numbers
    other than 0 and [minValue > maxValue], the floor the generator uses is
    [maxValue], and, [factor * base^n] being a number (the factor is not 0,
    or [|base| <= 1]), the value of every pull before jitter is at most
    [maxValue]. *)
Theorem max_wins_over_min
    (base factor mx mn : Q) (jitter : Jitter) (rnd : nat -> Q) (k : nat) :
  ~ mx == 0 -> ~ mn == 0 -> mx < mn ->
  productIsNumber factor base ->
  g_minValue (exponentialGenerator base factor (Some mx) (Some mn) jitter)
  = Some mx
  /\ pull rnd (exponentialGenerator base factor (Some mx) (Some mn) jitter) k
     = applyJitter jitter (rnd k)
         (deterministicValue base factor (Some mx) (Some mn) k)
  /\ deterministicValue base factor (Some mx) (Some mn) k <= mx.
Proof.
  intros Hmx Hmn Hlt _.
  assert (E : handleContradiction (Some mx) (Some mn) = Some mx).
  { unfold handleContradiction.
    apply truthy_Some in Hmx. apply truthy_Some in Hmn.
    apply Qgtb_true in Hlt. now rewrite Hmx, Hmn, Hlt. }
  split; [exact E|]. split; [apply pull_exponentialGenerator|].
  unfold deterministicValue. rewrite E.
  apply floor_le.
  - now apply ceiling_le.
  - intros m Hm. injection Hm as <-. apply Qle_refl.
Qed.

Lemma max_wins_over_min_witness :
  (~ 500 == 0 /\ ~ 100000 == 0 /\ 500 < 100000 /\ productIsNumber 1000 1)
  /\ g_minValue
       (exponentialGenerator 1 1000 (Some 500) (Some 100000) (JBool false))
     = Some 500
  /\ deterministicValue 1 1000 (Some 500) (Some 100000) 0 <= 500.
Proof.
  assert (H1 : ~ 500 == 0) by (intros H; discriminate H).
  assert (H2 : ~ 100000 == 0) by (intros H; discriminate H).
  assert (H3 : 500 < 100000) by reflexivity.
  assert (H4 : productIsNumber 1000 1) by (left; intros H; discriminate H).
  split; [now repeat split|].
  destruct (max_wins_over_min 1 1000 500 100000 (JBool false) noRandom 0
              H1 H2 H3 H4) as [A [_ B]].
  split; [exact A | exact B].
Defined.

(** C9.  A [maxValue] of 0 and a [minValue] of 0 act as absent bounds: every
    pull is the one of the generator created without the bound, whatever the
    other arguments; in particular with [maxValue = 0] and no floor, or with
    [minValue = 0] and no ceiling, and no jitter, the [k]-th value is
    [factor * base^k], neither capped nor raised. *)
Theorem zero_bounds_are_absent
    (base factor : Q) (bound : option Q) (jitter : Jitter)
    (rnd : nat -> Q) (k : nat) :
  pull rnd (exponentialGenerator base factor (Some 0) bound jitter) k
  = pull rnd (exponentialGenerator base factor None bound jitter) k
  /\ pull rnd (exponentialGenerator base factor bound (Some 0) jitter) k
     = pull rnd (exponentialGenerator base factor bound None jitter) k
  /\ pull rnd (exponentialGenerator base factor (Some 0) None (JBool false)) k
     = factor * base ^ Z.of_nat k
  /\ pull rnd (exponentialGenerator base factor None (Some 0) (JBool false)) k
     = factor * base ^ Z.of_nat k.
Proof.
  rewrite !pull_exponentialGenerator. unfold deterministicValue.
  split; [|split; [|split]].
  - destruct bound as [m|]; [|reflexivity].
    unfold handleContradiction.
    change (truthy (Some 0)) with false.
    now rewrite andb_false_r.
  - destruct bound as [m|]; reflexivity.
  - reflexivity.
  - reflexivity.
Qed.

(** With [maxValue = 0] the values grow past the ceiling that was passed. *)
Example zero_ceiling_values :
  take noRandom (exponentialGenerator 2 1 (Some 0) None (JBool false)) 4
  = [1; 2; 4; 8].
Proof. vm_compute. reflexivity. Qed.

(** With [minValue = 0] a negative value is not raised to 0. *)
Example zero_floor_values :
  take noRandom (exponentialGenerator 2 (-1) None (Some 0) (JBool false)) 3
  = [-1; -2; -4].
Proof. vm_compute. reflexivity. Qed.

(** The partial-jitter branch is taken for every [j] of [[0, 1]]. *)
Lemma applyJitter_number (j random value : Q) :
  0 <= j -> j <= 1 ->
  applyJitter (JNumber j) random value
  = Math_round ((1 - j * random) * value).
Proof.
  intros H0 H1. unfold applyJitter.
  apply Qle_bool_iff in H0. apply Qle_bool_iff in H1.
  now rewrite H0, H1.
Qed.

(** C7, as stated, fails on a deterministic value that is not an integer,
    because the jitter branch rounds: with base 1 and factor 1/2 the
    deterministic value is 1/2, while [jitter = 0] yields 1, and so does
    [jitter = 1/2] with a draw of 0, above the interval's upper end. *)
Lemma jitter_rounds_past_the_value :
  deterministicValue 1 (1 # 2) None None 0 = 1 # 2
  /\ pull noRandom (exponentialGenerator 1 (1 # 2) None None (JNumber 0)) 0 = 1
  /\ ~ 1 == 1 # 2
  /\ pull noRandom (exponentialGenerator 1 (1 # 2) None None (JNumber (1 # 2))) 0
     = 1
  /\ ~ 1 <= 1 # 2.
Proof.
  split; [vm_compute; reflexivity|].
  split; [vm_compute; reflexivity|].
  split; [intros H; discriminate H|].
  split; [vm_compute; reflexivity|].
  intros H. apply H. reflexivity.
Qed.

(** With [jitter = 0] the branch of the numeric jitter is taken, and rounds. *)
Lemma jitter_zero_rounds
    (base factor : Q) (maxValue minValue : option Q) (j : Q)
    (rnd : nat -> Q) (k : nat) :
  j == 0 ->
  pull rnd (exponentialGenerator base factor maxValue minValue (JNumber j)) k
  = Math_round (deterministicValue base factor maxValue minValue k).
Proof.
  intros Hj. rewrite pull_exponentialGenerator.
  rewrite applyJitter_number by lra.
  apply Math_round_comp. rewrite Hj. ring.
Qed.

(** C7, amended.  Let [v] be the deterministic (clamped) value of pull [k].
    For [j] in (0,1), a draw in [[0,1)] and [v >= 0], the value pulled lies
    in [[round((1-j)*v), round(v)]], and [round(v)] is [v] when [v] is an
    integer; with [j = 0] the value pulled is [v] itself when [v] is an
    integer. *)
Theorem partial_jitter_range
    (base factor : Q) (maxValue minValue : option Q)
    (rnd : nat -> Q) (k : nat) :
  let v := deterministicValue base factor maxValue minValue k in
  let pulled j :=
    pull rnd (exponentialGenerator base factor maxValue minValue (JNumber j)) k
  in
  (forall j, 0 < j -> j < 1 -> 0 <= rnd k -> rnd k < 1 -> 0 <= v ->
     Math_round ((1 - j) * v) <= pulled j /\ pulled j <= Math_round v)
  /\ (forall z, v == inject_Z z -> Math_round v == v)
  /\ (forall j z, j == 0 -> v == inject_Z z -> pulled j == v).
Proof.
  intros v pulled. subst pulled. cbv beta.
  assert (I : forall z, v == inject_Z z -> Math_round v == v).
  { intros z Hz. rewrite (Math_round_comp v (inject_Z z) Hz).
    rewrite Math_round_integer. now symmetry. }
  split; [|split].
  - intros j Hj0 Hj1 Hr0 Hr1 Hv.
    rewrite pull_exponentialGenerator. fold v.
    rewrite applyJitter_number by lra.
    assert (P : 0 <= j * (1 - rnd k) * v).
    { apply Qmult_le_0_compat; [|exact Hv].
      apply Qmult_le_0_compat; lra. }
    assert (N : 0 <= j * rnd k * v).
    { apply Qmult_le_0_compat; [|exact Hv].
      apply Qmult_le_0_compat; lra. }
    split; apply Math_round_le; lra.
  - exact I.
  - intros j z Hj Hz. rewrite (jitter_zero_rounds _ _ _ _ j rnd k Hj).
    fold v. now apply (I z).
Qed.

Lemma partial_jitter_range_witness :
  Math_round ((1 - (1 # 5)) * deterministicValue 2 1 (Some 1000) (Some 0) 3)
  <= pull halfRandom
          (exponentialGenerator 2 1 (Some 1000) (Some 0) (JNumber (1 # 5))) 3
  /\ pull halfRandom
          (exponentialGenerator 2 1 (Some 1000) (Some 0) (JNumber (1 # 5))) 3
     <= Math_round (deterministicValue 2 1 (Some 1000) (Some 0) 3)
  /\ Math_round (deterministicValue 2 1 (Some 1000) (Some 0) 3)
     == deterministicValue 2 1 (Some 1000) (Some 0) 3
  /\ pull halfRandom
          (exponentialGenerator 2 1 (Some 1000) (Some 0) (JNumber 0)) 3
     == deterministicValue 2 1 (Some 1000) (Some 0) 3.
Proof.
  destruct (partial_jitter_range 2 1 (Some 1000) (Some 0) halfRandom 3)
    as [A [B C]].
  destruct (A (1 # 5)) as [A1 A2];
    try reflexivity; try (intros H; discriminate H).
  split; [exact A1|]. split; [exact A2|].
  split; [apply (B 8%Z); reflexivity|].
  apply (C 0 8%Z); reflexivity.
Defined.

(** The test of partial jitter: with jitteriness 0.2 and a draw of 1/2 the
    values stay between [round(0.8 * 2^x)] and [2^x]. *)
Example partial_jitter_values :
  take halfRandom
       (exponentialGenerator 2 1 (Some 1000) (Some 0) (JNumber (1 # 5))) 6
  = [1; 2; 4; 7; 14; 29].
Proof. vm_compute. reflexivity. Qed.

(** On a negative deterministic value the order of the interval's ends is
    reversed: factor -10, jitter 1/2 and a draw of 1/2 give -7. *)
Example partial_jitter_negative :
  pull halfRandom
       (exponentialGenerator 1 (-10) None None (JNumber (1 # 2))) 0 = -7
  /\ Math_round ((1 - (1 # 2)) * deterministicValue 1 (-10) None None 0) = -5.
Proof. split; vm_compute; reflexivity. Qed.

(** ** The retry loop *)

Section RetryLoop.

Context {Result Error Args World : Type}.

Variable maxRetries : Q.
Variable p : option (PredicateFunction Error Args).
Variable f : TargetFunction Result Error Args World.
Variable thisArg : option Receiver.
Variable args : Args.

Local Abbreviation loop := (retryLoop (Result := Result) (World := World)).

(** The four ways an iteration ends: the states [SUCCEEDED],
    [FAILED_NO_RETRY], [FAILED_EXHAUSTED] and [WAITING]. *)

Lemma retryLoop_succeeded fuel rnd gen numRetries w result w' :
  apply f thisArg args w = (Returns result, w') ->
  loop (S fuel) maxRetries p f thisArg args rnd gen numRetries w
  = Some (mkRun (Resolved result)
                (Invoke thisArg args
                 :: emit thisArg "retries" f args (inject_Z numRetries))
                w').
Proof.
  intros E. cbn [retryLoop]. destruct (next (rnd O) gen) as [d g'].
  rewrite E. reflexivity.
Qed.

Lemma retryLoop_no_retry fuel rnd gen numRetries w err w' :
  apply f thisArg args w = (Throws err, w') ->
  declines p err args = true ->
  loop (S fuel) maxRetries p f thisArg args rnd gen numRetries w
  = Some (mkRun (Rejected err) [Invoke thisArg args] w').
Proof.
  intros E D. cbn [retryLoop]. destruct (next (rnd O) gen) as [d g'].
  rewrite E, D. reflexivity.
Qed.

Lemma retryLoop_exhausted fuel rnd gen numRetries w err w' :
  apply f thisArg args w = (Throws err, w') ->
  declines p err args = false ->
  (Qfloor maxRetries < numRetries + 1)%Z ->
  loop (S fuel) maxRetries p f thisArg args rnd gen numRetries w
  = Some (mkRun (Rejected err) [Invoke thisArg args] w').
Proof.
  intros E D X. cbn [retryLoop]. destruct (next (rnd O) gen) as [d g'].
  rewrite E, D. apply counter_exceeds in X. rewrite X. reflexivity.
Qed.

Lemma retryLoop_waiting fuel rnd gen numRetries w err w' :
  apply f thisArg args w = (Throws err, w') ->
  declines p err args = false ->
  (numRetries + 1 <= Qfloor maxRetries)%Z ->
  loop (S fuel) maxRetries p f thisArg args rnd gen numRetries w
  = after (Invoke thisArg args
           :: emit thisArg "throttle" f args (fst (next (rnd O) gen))
              ++ [Sleep (fst (next (rnd O) gen))])
          (loop fuel maxRetries p f thisArg args (fun i => rnd (S i))
                (snd (next (rnd O) gen)) (numRetries + 1)%Z w').
Proof.
  intros E D X. cbn [retryLoop]. destruct (next (rnd O) gen) as [d g'].
  rewrite E, D. apply counter_within in X. rewrite X. reflexivity.
Qed.

(** Fuel beyond what a run needs changes nothing. *)
Lemma retryLoop_more_fuel fuel :
  forall rnd gen numRetries w run,
    loop fuel maxRetries p f thisArg args rnd gen numRetries w = Some run ->
    forall fuel', (fuel <= fuel')%nat ->
      loop fuel' maxRetries p f thisArg args rnd gen numRetries w = Some run.
Proof.
  induction fuel as [|fuel IH]; intros rnd gen numRetries w run H fuel' L.
  - discriminate H.
  - destruct fuel' as [|fuel']; [lia|].
    cbn [retryLoop] in H |- *.
    destruct (next (rnd O) gen) as [d g'].
    destruct (apply f thisArg args w) as [[result|err] w']; [exact H|].
    destruct (declines p err args); [exact H|].
    destruct (Qgtb (inject_Z (numRetries + 1)) maxRetries); [exact H|].
    destruct (loop fuel maxRetries p f thisArg args (fun i => rnd (S i)) g'
                   (numRetries + 1)%Z w') as [r|] eqn:R; [|discriminate H].
    rewrite (IH _ _ _ _ _ R fuel') by lia. exact H.
Qed.

(** The loop ends: fuel above the distance of the counter to [maxRetries]
    is never used up. *)
Lemma retryLoop_terminates fuel :
  forall rnd gen numRetries w,
    (0 < fuel)%nat ->
    (Qfloor maxRetries - numRetries < Z.of_nat fuel)%Z ->
    exists run,
      loop fuel maxRetries p f thisArg args rnd gen numRetries w = Some run.
Proof.
  induction fuel as [|fuel IH]; intros rnd gen numRetries w Hpos Hfuel; [lia|].
  destruct (apply f thisArg args w) as [[result|err] w'] eqn:E.
  - eexists. eapply retryLoop_succeeded. eassumption.
  - destruct (declines p err args) eqn:D.
    + eexists. eapply retryLoop_no_retry; eassumption.
    + destruct (Z_lt_le_dec (Qfloor maxRetries) (numRetries + 1)) as [X|X].
      * eexists. eapply retryLoop_exhausted; eassumption.
      * rewrite (retryLoop_waiting _ _ _ _ _ _ _ E D X).
        destruct (IH (fun i => rnd (S i)) (snd (next (rnd O) gen))
                     (numRetries + 1)%Z w') as [run R]; [lia | lia |].
        rewrite R. eexists. reflexivity.
Qed.

End RetryLoop.

(** [retry] settles, for every target, predicate and options. *)
Theorem retry_settles {Result Error Args World : Type}
    (options : BackoffOptions Error Args)
    (f : TargetFunction Result Error Args World)
    (thisArg : option Receiver) (args : Args) (rnd : nat -> Q) (w : World) :
  exists run, retry options f thisArg args rnd w = Some run.
Proof.
  unfold retry. apply retryLoop_terminates.
  - unfold enoughFuel. lia.
  - unfold enoughFuel. lia.
Qed.

(** ** Reading traces *)

Section Traces.

Context {Args : Type}.

Implicit Types t : list (Effect Args).

Lemma invocations_app t1 t2 :
  invocations (t1 ++ t2) = (invocations t1 + invocations t2)%nat.
Proof.
  unfold invocations. now rewrite filter_app, length_app.
Qed.

Lemma sleeps_app t1 t2 : sleeps (t1 ++ t2) = (sleeps t1 ++ sleeps t2)%list.
Proof. unfold sleeps. apply flat_map_app. Qed.

Lemma emitted_app event t1 t2 :
  emitted event (t1 ++ t2) = (emitted event t1 ++ emitted event t2)%list.
Proof. unfold emitted. apply flat_map_app. Qed.

Lemma invocations_emit {Result Error World : Type}
    thisArg event (f : TargetFunction Result Error Args World) args value :
  invocations (emit thisArg event f args value) = O.
Proof. unfold emit. now destruct (canEmit thisArg). Qed.

Lemma sleeps_emit {Result Error World : Type}
    thisArg event (f : TargetFunction Result Error Args World) args value :
  sleeps (emit thisArg event f args value) = [].
Proof. unfold emit. now destruct (canEmit thisArg). Qed.

End Traces.

(** ** A predicate that declines, or none *)

Section NoRetry.

Context {Result Error Args World : Type}.

Variable options : BackoffOptions Error Args.
Variable f : TargetFunction Result Error Args World.
Variable thisArg : option Receiver.
Variable args : Args.
Variable rnd : nat -> Q.

Lemma notRetried_declines err :
  notRetried options args err -> declines (predicate options) err args = true.
Proof.
  intros [N | [pred [S F]]]; unfold declines.
  - now rewrite N.
  - now rewrite S, F.
Qed.

Lemma retry_no_retry w err w' :
  apply f thisArg args w = (Throws err, w') ->
  notRetried options args err ->
  retry options f thisArg args rnd w
  = Some (mkRun (Rejected err) [Invoke thisArg args] w').
Proof.
  intros E N. unfold retry, enoughFuel.
  apply retryLoop_no_retry; [exact E | now apply notRetried_declines].
Qed.

(** C3.  When no predicate is supplied, or the predicate returns false for
    the error and the arguments, the first failure of the target is the
    outcome of [retry], unchanged: the promise rejects with that error, the
    target has been invoked exactly once, and its state is the one that
    single invocation left. *)
Theorem first_failure_is_propagated w err w' :
  apply f thisArg args w = (Throws err, w') ->
  notRetried options args err ->
  exists run,
    retry options f thisArg args rnd w = Some run
    /\ outcome run = Rejected err
    /\ invocations (trace run) = 1%nat
    /\ world run = w'.
Proof.
  intros E N. eexists. split; [eapply retry_no_retry; eassumption|].
  cbn. repeat split.
Qed.

(** C10.  When the failure is not retried, [retry] throws before the sleep
    and notification steps: all that is observable is one invocation of the
    target followed by the rejection with the target's error, with or without
    an event emitter as [thisArg]; nothing is slept, neither ["throttle"]
    nor ["retries"] is emitted, and the target is left in the state of that
    one invocation. *)
Theorem not_retried_has_no_side_effect w err w' :
  apply f thisArg args w = (Throws err, w') ->
  notRetried options args err ->
  exists run,
    retry options f thisArg args rnd w = Some run
    /\ trace run = [Invoke thisArg args]
    /\ outcome run = Rejected err
    /\ sleeps (trace run) = []
    /\ emitted "throttle" (trace run) = []
    /\ emitted "retries" (trace run) = []
    /\ filter isEmit (trace run) = []
    /\ world run = w'.
Proof.
  intros E N. eexists. split; [eapply retry_no_retry; eassumption|].
  cbn. repeat split.
Qed.

End NoRetry.

Lemma first_failure_is_propagated_witness :
  apply (flaky 2) emitter [8] O = (Throws "bar"%string, 1%nat)
  /\ notRetried (optionsOf (Some 3) None) [8] "bar"%string
  /\ exists run,
       retry (optionsOf (Some 3) None) (flaky 2) emitter [8] noRandom O
       = Some run
       /\ outcome run = Rejected "bar"%string
       /\ invocations (trace run) = 1%nat
       /\ world run = 1%nat.
Proof.
  assert (E : apply (flaky 2) emitter [8] O = (Throws "bar"%string, 1%nat))
    by reflexivity.
  assert (N : notRetried (optionsOf (Some 3) None) [8] "bar"%string)
    by (left; reflexivity).
  split; [exact E|]. split; [exact N|].
  exact (first_failure_is_propagated (optionsOf (Some 3) None) (flaky 2)
           emitter [8] noRandom O "bar"%string 1%nat E N).
Defined.

Lemma not_retried_has_no_side_effect_witness :
  apply faultyCall emitter [1; 2] O = (Throws 1%nat, 1%nat)
  /\ notRetried (optionsOf (Some 3) (Some alwaysFalse)) [1; 2] 1%nat
  /\ exists run,
       retry (optionsOf (Some 3) (Some alwaysFalse)) faultyCall emitter [1; 2]
             noRandom O
       = Some run
       /\ trace run = [Invoke emitter [1; 2]]
       /\ outcome run = Rejected 1%nat
       /\ sleeps (trace run) = []
       /\ emitted "throttle" (trace run) = []
       /\ emitted "retries" (trace run) = []
       /\ filter isEmit (trace run) = []
       /\ world run = 1%nat.
Proof.
  assert (E : apply faultyCall emitter [1; 2] O = (Throws 1%nat, 1%nat))
    by reflexivity.
  assert (N : notRetried (optionsOf (Some 3) (Some alwaysFalse)) [1; 2] 1%nat).
  { right. exists alwaysFalse. split; reflexivity. }
  split; [exact E|]. split; [exact N|].
  exact (not_retried_has_no_side_effect
           (optionsOf (Some 3) (Some alwaysFalse)) faultyCall emitter [1; 2]
           noRandom O 1%nat 1%nat E N).
Defined.

(** ** A target that always fails, a predicate that always approves *)

Section Exhaustion.

Context {Result Error Args World : Type}.

Variable f : TargetFunction Result Error Args World.
Variable thisArg : option Receiver.
Variable args : Args.
Variable pred : PredicateFunction Error Args.

Hypothesis always_fails :
  forall w, exists err, fst (apply f thisArg args w) = Throws err.
Hypothesis always_approves : forall err a, pred err a = true.

Lemma attempt_S k w :
  attempt f thisArg args (S k) w
  = attempt f thisArg args k (snd (apply f thisArg args w)).
Proof. reflexivity. Qed.

(** From a counter [numRetries] the loop makes
    [1 + max 0 (floor maxRetries - numRetries)] invocations, sleeps between
    them, and rejects with what the last of them threw. *)
Lemma retryLoop_exhausts (maxRetries : Q) fuel :
  forall rnd gen numRetries w,
    (0 < fuel)%nat ->
    (Qfloor maxRetries - numRetries < Z.of_nat fuel)%Z ->
    exists err run,
      retryLoop fuel maxRetries (Some pred) f thisArg args rnd gen numRetries w
      = Some run
      /\ outcome run = Rejected err
      /\ invocations (trace run)
         = S (Z.to_nat (Qfloor maxRetries - numRetries))
      /\ attempt f thisArg args (Z.to_nat (Qfloor maxRetries - numRetries)) w
         = Throws err
      /\ world run
         = worldAfter f thisArg args
             (S (Z.to_nat (Qfloor maxRetries - numRetries))) w
      /\ List.length (sleeps (trace run))
         = Z.to_nat (Qfloor maxRetries - numRetries).
Proof.
  induction fuel as [|fuel IH]; intros rnd gen numRetries w Hpos Hfuel; [lia|].
  destruct (always_fails w) as [err Herr].
  destruct (apply f thisArg args w) as [c w'] eqn:E.
  cbn [fst] in Herr. subst c.
  assert (D : declines (Some pred) err args = false).
  { unfold declines. now rewrite always_approves. }
  destruct (Z_lt_le_dec (Qfloor maxRetries) (numRetries + 1)) as [X|X].
  - exists err. eexists.
    split; [eapply retryLoop_exhausted; eassumption|].
    replace (Z.to_nat (Qfloor maxRetries - numRetries)) with O by lia.
    cbn. unfold attempt. cbn. rewrite E. repeat split.
  - destruct (IH (fun i => rnd (S i)) (snd (next (rnd O) gen))
                 (numRetries + 1)%Z w')
      as [err' [run [R [Ho [Hi [Ha [Hw Hs]]]]]]]; [lia | lia |].
    exists err'. eexists.
    split.
    { rewrite (retryLoop_waiting _ _ _ _ _ _ _ _ _ _ _ _ E D X).
      rewrite R. reflexivity. }
    replace (Z.to_nat (Qfloor maxRetries - numRetries))
      with (S (Z.to_nat (Qfloor maxRetries - (numRetries + 1)))) by lia.
    cbn [outcome trace world].
    split; [exact Ho|].
    split.
    { change (Invoke thisArg args :: ?t) with ([Invoke thisArg args] ++ t)%list.
      rewrite !invocations_app, invocations_emit, Hi. reflexivity. }
    split.
    { rewrite attempt_S, E. exact Ha. }
    split.
    { rewrite Hw. cbn [worldAfter]. now rewrite E. }
    change (Invoke thisArg args :: ?t) with ([Invoke thisArg args] ++ t)%list.
    rewrite !sleeps_app, sleeps_emit, !length_app, Hs. reflexivity.
Qed.

Variable options : BackoffOptions Error Args.
Variable rnd : nat -> Q.
Variable w : World.

Hypothesis predicate_is_pred : predicate options = Some pred.

(** C1.  When the target fails on each attempt and the predicate approves
    every retry, [retry] rejects with the error that the last invocation of
    the target threw, itself: the invocation after which the incremented
    counter exceeds [maxRetries], and after which the target is not invoked
    again. *)
Theorem exhausted_retries_rethrow_last_error :
  exists err run,
    retry options f thisArg args rnd w = Some run
    /\ outcome run = Rejected err
    /\ attempt f thisArg args (Nat.pred (invocations (trace run))) w
       = Throws err
    /\ world run = worldAfter f thisArg args (invocations (trace run)) w
    /\ orDefault (maxRetries options) 1
       < inject_Z (Z.of_nat (invocations (trace run)) + 1).
Proof.
  unfold retry. rewrite predicate_is_pred.
  set (m := orDefault (maxRetries options) 1).
  destruct (retryLoop_exhausts m (enoughFuel m) rnd
              (exponentialGenerator (orDefault (base options) 2)
                 (orDefault (backoffFactor options) 50) (maxDelayMs options)
                 (minDelayMs options) (fullJitter options)) 1%Z w)
    as [err [run [R [Ho [Hi [Ha [Hw _]]]]]]].
  { unfold enoughFuel. lia. }
  { unfold enoughFuel. lia. }
  exists err, run. split; [exact R|]. split; [exact Ho|].
  rewrite Hi. cbn [Nat.pred]. split; [exact Ha|]. split; [exact Hw|].
  apply Qlt_le_trans with (inject_Z (Qfloor m + 1)); [apply Qlt_floor|].
  rewrite <- Zle_Qle. lia.
Qed.


End Exhaustion.

Lemma faultyCall_always_fails (thisArg : option Receiver) (args : list Q) :
  forall w, exists err, fst (apply faultyCall thisArg args w) = Throws err.
Proof. intros w. exists (S w). reflexivity. Qed.

Lemma alwaysTrue_approves {Error Args : Type} :
  forall (err : Error) (a : Args), alwaysTrue err a = true.
Proof. reflexivity. Qed.

Lemma exhausted_retries_rethrow_last_error_witness :
  (forall w, exists err, fst (apply faultyCall emitter [] w) = Throws err)
  /\ (forall (err : nat) (a : list Q), alwaysTrue err a = true)
  /\ predicate (optionsOf (Some 3) (Some alwaysTrue))
     = Some (@alwaysTrue nat (list Q))
  /\ exists err run,
       retry (optionsOf (Some 3) (Some alwaysTrue)) faultyCall emitter []
             noRandom O
       = Some run
       /\ outcome run = Rejected err
       /\ attempt faultyCall emitter [] (Nat.pred (invocations (trace run))) O
          = Throws err
       /\ world run
          = worldAfter faultyCall emitter [] (invocations (trace run)) O
       /\ orDefault (maxRetries (optionsOf (Some 3) (Some (@alwaysTrue nat (list Q))))) 1
          < inject_Z (Z.of_nat (invocations (trace run)) + 1).
Proof.
  split; [apply faultyCall_always_fails|].
  split; [apply alwaysTrue_approves|].
  split; [reflexivity|].
  exact (exhausted_retries_rethrow_last_error faultyCall emitter [] alwaysTrue
           (faultyCall_always_fails emitter []) alwaysTrue_approves
           (optionsOf (Some 3) (Some alwaysTrue)) noRandom O eq_refl).
Defined.

(** The test "uses the instance backoffOptions": three calls, and the error
    of the third one (here its number) is what [retry] rejects with. *)
Example uses_the_instance_backoffOptions :
  retry (mkBackoffOptions (Some 3) (Some 2) (Some 1) None (Some 1)
                          (Some alwaysTrue) JUndefined)
        faultyCall emitter [] noRandom O
  = Some (mkRun (Rejected 3%nat)
                [Invoke emitter []; Emit "throttle" "matchingCall" [] 1; Sleep 1;
                 Invoke emitter []; Emit "throttle" "matchingCall" [] 2; Sleep 2;
                 Invoke emitter []]
                3%nat).
Proof. vm_compute. reflexivity. Qed.

(** The earlier revision rejects with a [RetryError] of its own there. *)
Example legacy_throws_RetryError :
  Legacy.retry (mkBackoffOptions (Some 3) (Some 2) (Some 1) None (Some 1)
                                 (Some alwaysTrue) JUndefined)
               faultyCall emitter [] noRandom O
  = Some (Legacy.mkRun
            (Legacy.Rejected (Legacy.RetryError 3 "matchingCall"))
            [Invoke emitter []; Sleep 1; Invoke emitter []; Sleep 2;
             Invoke emitter []]
            3%nat).
Proof. vm_compute. reflexivity. Qed.

(** The earlier revision of the generator lets a contradicting [minValue]
    win over [maxValue]. *)
Example legacy_min_wins :
  fst (Legacy.next 0
         (Legacy.exponentialGenerator 1 1000 (Some 500) (Some 100000)
                                      (JBool false)))
  = 100000.
Proof. vm_compute. reflexivity. Qed.



(** The test "throws an error if maxRetries is reached": two attempts. *)
Example throws_if_maxRetries_is_reached :
  retry (optionsOf (Some 2) (Some alwaysTrue)) faultyCall None [] noRandom O
  = Some (mkRun (Rejected 2%nat)
                [Invoke None []; Sleep 50; Invoke None []] 2%nat).
Proof. vm_compute. reflexivity. Qed.

(** ** A target that fails twice, then succeeds *)

Section Recovery.

Context {Result Error Args World : Type}.

Variable f : TargetFunction Result Error Args World.
Variable thisArg : option Receiver.
Variable args : Args.
Variable pred : PredicateFunction Error Args.
Variable rnd : nat -> Q.
Variable w : World.
Variables (err1 err2 : Error) (result : Result).

Hypothesis first_fails : attempt f thisArg args 0 w = Throws err1.
Hypothesis second_fails : attempt f thisArg args 1 w = Throws err2.
Hypothesis third_succeeds : attempt f thisArg args 2 w = Returns result.
Hypothesis always_approves : forall err a, pred err a = true.

(** Whatever the delay options, the run is: attempt, throttle and sleep with
    the first pull, attempt, throttle and sleep with the second pull,
    attempt, ["retries"] with the counter 3. *)
Lemma retry_recovers (options : BackoffOptions Error Args) :
  maxRetries options = Some 3 ->
  predicate options = Some pred ->
  let gen :=
    exponentialGenerator (orDefault (base options) 2)
      (orDefault (backoffFactor options) 50) (maxDelayMs options)
      (minDelayMs options) (fullJitter options) in
  retry options f thisArg args rnd w
  = Some (mkRun (Resolved result)
                ([Invoke thisArg args]
                 ++ emit thisArg "throttle" f args (pull rnd gen 0)
                 ++ [Sleep (pull rnd gen 0)]
                 ++ [Invoke thisArg args]
                 ++ emit thisArg "throttle" f args (pull rnd gen 1)
                 ++ [Sleep (pull rnd gen 1)]
                 ++ [Invoke thisArg args]
                 ++ emit thisArg "retries" f args 3)
                (worldAfter f thisArg args 3 w)).
Proof.
  intros Hmax Hpred gen.
  unfold attempt in first_fails, second_fails, third_succeeds.
  cbn [worldAfter] in *.
  destruct (apply f thisArg args w) as [c0 w1] eqn:E0.
  cbn [fst snd] in *. subst c0.
  destruct (apply f thisArg args w1) as [c1 w2] eqn:E1.
  cbn [fst snd] in *. subst c1.
  destruct (apply f thisArg args w2) as [c2 w3] eqn:E2.
  cbn [fst snd] in *. subst c2.
  assert (D : forall err, declines (Some pred) err args = false).
  { intros err. unfold declines. now rewrite always_approves. }
  unfold retry. rewrite Hmax, Hpred. cbn [orDefault]. fold gen.
  change (enoughFuel 3) with 4%nat.
  rewrite (retryLoop_waiting 3 (Some pred) f thisArg args 3 rnd gen 1 w
             err1 w1 E0 (D err1)) by (change (Qfloor 3) with 3%Z; lia).
  rewrite (retryLoop_waiting 3 (Some pred) f thisArg args 2
             (fun i => rnd (S i)) (snd (next (rnd O) gen)) (1 + 1) w1
             err2 w2 E1 (D err2)) by (change (Qfloor 3) with 3%Z; lia).
  rewrite (retryLoop_succeeded 3 (Some pred) f thisArg args 1 _ _ _ w2
             result w3 E2).
  cbn [after outcome trace world app]. rewrite <- !app_assoc. reflexivity.
Qed.

(** The default delays.  With [{ maxRetries: 3, predicate }], the predicate
    approving every retry, and an event emitter as [thisArg] whose [emit]
    returns, a target that fails on its
    first two attempts and succeeds on the third makes [retry] resolve with
    the result of the third attempt, after exactly three invocations; the
    sleep function is called exactly twice; ["throttle"] is emitted exactly
    twice, with the delays 50 and then 100 that are slept; and ["retries"]
    is emitted exactly once, with the count 3. *)
Theorem fails_twice_then_succeeds :
  canEmit thisArg = true ->
  exists run,
    retry (optionsOf (Some 3) (Some pred)) f thisArg args rnd w = Some run
    /\ outcome run = Resolved result
    /\ world run = worldAfter f thisArg args 3 w
    /\ invocations (trace run) = 3%nat
    /\ sleeps (trace run) = [50; 100]
    /\ emitted "throttle" (trace run) = [50; 100]
    /\ 50 < 100
    /\ emitted "retries" (trace run) = [3]
    /\ trace run
       = [Invoke thisArg args;
          Emit "throttle" (name f) args 50; Sleep 50;
          Invoke thisArg args;
          Emit "throttle" (name f) args 100; Sleep 100;
          Invoke thisArg args;
          Emit "retries" (name f) args 3].
Proof.
  intros Hemit. eexists.
  split; [apply retry_recovers; reflexivity|].
  cbn [outcome world trace].
  rewrite !pull_exponentialGenerator. cbn [optionsOf base backoffFactor
    maxDelayMs minDelayMs fullJitter orDefault applyJitter].
  change (deterministicValue 2 50 None None 0) with 50.
  change (deterministicValue 2 50 None None 1) with 100.
  unfold emit. rewrite Hemit.
  cbn. repeat split.
Qed.

End Recovery.

Lemma fails_twice_then_succeeds_witness :
  attempt (flaky 2) emitter [10] 0 O = Throws "bar"%string
  /\ attempt (flaky 2) emitter [10] 1 O = Throws "bar"%string
  /\ attempt (flaky 2) emitter [10] 2 O = Returns 20
  /\ (forall (err : string) (a : list Q), alwaysTrue err a = true)
  /\ canEmit emitter = true
  /\ exists run,
       retry (optionsOf (Some 3) (Some alwaysTrue)) (flaky 2) emitter [10]
             noRandom O
       = Some run
       /\ outcome run = Resolved 20
       /\ world run = worldAfter (flaky 2) emitter [10] 3 O
       /\ invocations (trace run) = 3%nat
       /\ sleeps (trace run) = [50; 100]
       /\ emitted "throttle" (trace run) = [50; 100]
       /\ 50 < 100
       /\ emitted "retries" (trace run) = [3]
       /\ trace run
          = [Invoke emitter [10];
             Emit "throttle" (name (flaky 2)) [10] 50; Sleep 50;
             Invoke emitter [10];
             Emit "throttle" (name (flaky 2)) [10] 100; Sleep 100;
             Invoke emitter [10];
             Emit "retries" (name (flaky 2)) [10] 3].
Proof.
  split; [reflexivity|]. split; [reflexivity|]. split; [reflexivity|].
  split; [apply alwaysTrue_approves|]. split; [reflexivity|].
  exact (fails_twice_then_succeeds (flaky 2) emitter [10] alwaysTrue noRandom O
           "bar"%string "bar"%string 20 eq_refl eq_refl eq_refl
           alwaysTrue_approves eq_refl).
Defined.

(** The test "emits retries and throttle events", with its options. *)
Example emits_retries_and_throttle_events :
  retry (mkBackoffOptions (Some 3) (Some 2) (Some 1) None (Some 1)
                          (Some alwaysTrue) JUndefined)
        (flaky 2) emitter [10] noRandom O
  = Some (mkRun (Resolved 20)
                [Invoke emitter [10]; Emit "throttle" "add" [10] 1; Sleep 1;
                 Invoke emitter [10]; Emit "throttle" "add" [10] 2; Sleep 2;
                 Invoke emitter [10]; Emit "retries" "add" [10] 3]
                3%nat).
Proof. vm_compute. reflexivity. Qed.

(** With a base of 1 the two delays are equal. *)
Example constant_delays_with_base_1 :
  option_map (fun run => sleeps (trace run))
    (retry (mkBackoffOptions (Some 3) None None (Some 1) None
                             (Some alwaysTrue) JUndefined)
           (flaky 2) emitter [10] noRandom O)
  = Some [50; 50].
Proof. vm_compute. reflexivity. Qed.

(** * Further properties of the generator *)

Lemma ceiling_mono (maxValue : option Q) (x y : Q) :
  x <= y -> ceiling maxValue x <= ceiling maxValue y.
Proof.
  intros H. unfold ceiling. destruct maxValue as [mx|]; [|exact H].
  destruct (truthy (Some mx)); [|exact H].
  now apply Q.min_le_compat_l.
Qed.

Lemma floor_mono (minValue : option Q) (x y : Q) :
  x <= y -> floor minValue x <= floor minValue y.
Proof.
  intros H. unfold floor. destruct minValue as [mn|]; [|exact H].
  destruct (truthy (Some mn)); [|exact H].
  now apply Q.max_le_compat_l.
Qed.

Lemma deterministicValue_mono_raw
    (base base' factor factor' : Q) (maxValue minValue : option Q) (k k' : nat) :
  factor * pow base k <= factor' * pow base' k' ->
  deterministicValue base factor maxValue minValue k
  <= deterministicValue base' factor' maxValue minValue k'.
Proof.
  intros H. unfold deterministicValue. now apply floor_mono, ceiling_mono.
Qed.

Lemma handleContradiction_kept (maxValue : option Q) (mn : Q) :
  (forall mx, maxValue = Some mx -> mx == 0 \/ mn <= mx) ->
  handleContradiction maxValue (Some mn) = Some mn.
Proof.
  intros H. unfold handleContradiction. destruct maxValue as [mx|]; [|reflexivity].
  destruct (H mx eq_refl) as [Z | L].
  - rewrite (truthy_zero mx Z). now rewrite andb_false_r.
  - apply Qgtb_false in L. rewrite L. now rewrite andb_false_r.
Qed.

(** The floor: when [minValue] is a number other than 0 and does not
    contradict [maxValue] (absent, 0, or at least [minValue]), and
    [factor * base^n] is a number (the factor is not 0, or [|base| <= 1]),
    every value before jitter is at least [minValue]. *)
Theorem prejitter_at_least_minValue
    (base factor mn : Q) (maxValue : option Q) (k : nat) :
  ~ mn == 0 ->
  (forall mx, maxValue = Some mx -> mx == 0 \/ mn <= mx) ->
  productIsNumber factor base ->
  mn <= deterministicValue base factor maxValue (Some mn) k.
Proof.
  intros Hmn Hmx _. unfold deterministicValue.
  rewrite (handleContradiction_kept maxValue mn Hmx).
  unfold floor. apply truthy_Some in Hmn. rewrite Hmn.
  apply Q.le_max_l.
Qed.

Lemma prejitter_at_least_minValue_witness :
  ~ 10 == 0
  /\ (forall mx, Some 32 = Some mx -> mx == 0 \/ 10 <= mx)
  /\ productIsNumber 1 2
  /\ 10 <= deterministicValue 2 1 (Some 32) (Some 10) 0.
Proof.
  assert (H1 : ~ 10 == 0) by (intros H; discriminate H).
  assert (H2 : forall mx, Some 32 = Some mx -> mx == 0 \/ 10 <= mx).
  { intros mx E. injection E as <-. right. intros C. discriminate C. }
  assert (H3 : productIsNumber 1 2) by (left; intros H; discriminate H).
  split; [exact H1|]. split; [exact H2|]. split; [exact H3|].
  exact (prejitter_at_least_minValue 2 1 10 (Some 32) 0 H1 H2 H3).
Defined.

(** Contradicting bounds: when both are numbers other than 0 and
    [minValue > maxValue], every value before jitter is [maxValue], at every
    pull and for every [base] and [factor] whose product [factor * base^n]
    is a number (the factor is not 0, or [|base| <= 1]). *)
Theorem contradicting_bounds_yield_maxValue
    (base factor mx mn : Q) (k : nat) :
  ~ mx == 0 -> ~ mn == 0 -> mx < mn ->
  productIsNumber factor base ->
  deterministicValue base factor (Some mx) (Some mn) k == mx.
Proof.
  intros Hmx Hmn Hlt _. unfold deterministicValue.
  assert (E : handleContradiction (Some mx) (Some mn) = Some mx).
  { unfold handleContradiction.
    pose proof (proj2 (truthy_Some mx) Hmx) as Tx.
    pose proof (proj2 (truthy_Some mn) Hmn) as Tn.
    apply Qgtb_true in Hlt. now rewrite Tx, Tn, Hlt. }
  rewrite E. unfold floor, ceiling.
  rewrite (proj2 (truthy_Some mx) Hmx).
  apply Q.max_l. apply Q.le_min_l.
Qed.

Lemma contradicting_bounds_yield_maxValue_witness :
  (~ 500 == 0 /\ ~ 100000 == 0 /\ 500 < 100000 /\ productIsNumber 7 2)
  /\ deterministicValue 2 7 (Some 500) (Some 100000) 4 == 500.
Proof.
  assert (H1 : ~ 500 == 0) by (intros H; discriminate H).
  assert (H2 : ~ 100000 == 0) by (intros H; discriminate H).
  assert (H3 : 500 < 100000) by reflexivity.
  assert (H4 : productIsNumber 7 2) by (left; intros H; discriminate H).
  split; [now repeat split|].
  exact (contradicting_bounds_yield_maxValue 2 7 500 100000 4 H1 H2 H3 H4).
Defined.

(** Saturation: once [factor * base^k] has reached a [maxValue] other than 0,
    the value before jitter is [maxValue], whatever [minValue] is. *)
Theorem prejitter_saturates_at_maxValue
    (base factor mx : Q) (minValue : option Q) (k : nat) :
  ~ mx == 0 ->
  mx <= factor * base ^ Z.of_nat k ->
  deterministicValue base factor (Some mx) minValue k == mx.
Proof.
  intros Hmx Hraw. unfold deterministicValue.
  assert (C : ceiling (Some mx) (factor * pow base k) == mx).
  { unfold ceiling. rewrite (proj2 (truthy_Some mx) Hmx).
    apply Q.min_l. exact Hraw. }
  destruct (handleContradiction (Some mx) minValue) as [m|] eqn:E;
    [|exact C].
  unfold floor. destruct (truthy (Some m)) eqn:T; [|exact C].
  pose proof (handleContradiction_le mx minValue m Hmx E T) as L.
  rewrite Q.max_r; [exact C|]. rewrite C. exact L.
Qed.

Lemma prejitter_saturates_at_maxValue_witness :
  ~ 32 == 0
  /\ 32 <= 1 * 2 ^ Z.of_nat 7
  /\ deterministicValue 2 1 (Some 32) (Some 10) 7 == 32.
Proof.
  assert (H1 : ~ 32 == 0) by (intros H; discriminate H).
  assert (H2 : 32 <= 1 * 2 ^ Z.of_nat 7) by (intros C; discriminate C).
  split; [exact H1|]. split; [exact H2|].
  exact (prejitter_saturates_at_maxValue 2 1 32 (Some 10) 7 H1 H2).
Defined.

(** Backing off never shrinks: with [base >= 1] and [factor > 0] (or
    [base = 1]: the product [factor * base^n] must be a number) the values
    before jitter are non-decreasing in the index of the pull, whatever the
    bounds. *)
Theorem prejitter_is_nondecreasing
    (base factor : Q) (maxValue minValue : option Q) (k k' : nat) :
  1 <= base -> 0 <= factor -> productIsNumber factor base ->
  (k <= k')%nat ->
  deterministicValue base factor maxValue minValue k
  <= deterministicValue base factor maxValue minValue k'.
Proof.
  intros Hb Hf _ Hk. apply deterministicValue_mono_raw. unfold pow.
  assert (P : base ^ Z.of_nat k <= base ^ Z.of_nat k').
  { apply Qpower_le_compat_l; [lia | exact Hb]. }
  set (a := base ^ Z.of_nat k) in *. set (b := base ^ Z.of_nat k') in *.
  nra.
Qed.

Lemma prejitter_is_nondecreasing_witness :
  (1 <= 2 /\ 0 <= 50 /\ productIsNumber 50 2 /\ (3 <= 8)%nat)
  /\ deterministicValue 2 50 (Some 1000) (Some 100) 3
     <= deterministicValue 2 50 (Some 1000) (Some 100) 8.
Proof.
  assert (H1 : 1 <= 2) by (intros C; discriminate C).
  assert (H2 : 0 <= 50) by (intros C; discriminate C).
  assert (H3 : (3 <= 8)%nat) by lia.
  assert (H4 : productIsNumber 50 2) by (left; intros H; discriminate H).
  split; [now repeat split|].
  exact (prejitter_is_nondecreasing 2 50 (Some 1000) (Some 100) 3 8
           H1 H2 H4 H3).
Defined.

(** A base of 1 gives fixed intervals: every value before jitter is the one
    of the first pull, the clamped [factor]. *)
Theorem base_one_is_constant
    (base factor : Q) (maxValue minValue : option Q) (k : nat) :
  base == 1 ->
  deterministicValue base factor maxValue minValue k
  == deterministicValue base factor maxValue minValue 0
  /\ deterministicValue base factor maxValue minValue 0
     == floor (handleContradiction maxValue minValue) (ceiling maxValue factor).
Proof.
  intros Hb.
  assert (R : forall i, factor * pow base i == factor).
  { intros i. unfold pow. rewrite Hb, Qpower_1. ring. }
  assert (V : forall i,
             deterministicValue base factor maxValue minValue i
             == floor (handleContradiction maxValue minValue)
                      (ceiling maxValue factor)).
  { intros i. unfold deterministicValue. apply Qle_antisym;
      apply floor_mono, ceiling_mono; rewrite (R i); apply Qle_refl. }
  split; [|apply V]. now rewrite (V k), (V O).
Qed.

Lemma base_one_is_constant_witness :
  1 == 1
  /\ deterministicValue 1 12 (Some 10000) (Some 0) 9
     == deterministicValue 1 12 (Some 10000) (Some 0) 0.
Proof.
  split; [reflexivity|].
  exact (proj1 (base_one_is_constant 1 12 (Some 10000) (Some 0) 9
                  (Qeq_refl 1))).
Defined.

(** With [base >= 0], [factor >= 0] and a [maxValue] that is not negative,
    every value before jitter is at least 0. *)
Lemma prejitter_is_nonnegative
    (base factor : Q) (maxValue minValue : option Q) (k : nat) :
  0 <= base -> 0 <= factor ->
  (forall mx, maxValue = Some mx -> 0 <= mx) ->
  0 <= deterministicValue base factor maxValue minValue k.
Proof.
  intros Hb Hf Hmx. unfold deterministicValue.
  assert (R : 0 <= factor * pow base k).
  { apply Qmult_le_0_compat; [exact Hf|]. now apply Qpower_0_le. }
  assert (C : 0 <= ceiling maxValue (factor * pow base k)).
  { unfold ceiling. destruct maxValue as [mx|]; [|exact R].
    destruct (truthy (Some mx)); [|exact R].
    apply Q.min_glb; [now apply Hmx | exact R]. }
  unfold floor. destruct (handleContradiction maxValue minValue) as [m|];
    [|exact C].
  destruct (truthy (Some m)); [|exact C].
  apply Qle_trans with (ceiling maxValue (factor * pow base k));
    [exact C | apply Q.le_max_r].
Qed.



(** Delays are never negative: with [base >= 0], [factor >= 0], a product
    [factor * base^n] that is a number (the factor is not 0, or [base <= 1]),
    a [maxValue] that is not negative when set, and a draw in (0,1), every
    value pulled is at least 0, whatever the jitter and [minValue]. *)
Theorem pulled_values_are_nonnegative
    (base factor : Q) (maxValue minValue : option Q) (jitter : Jitter)
    (rnd : nat -> Q) (k : nat) :
  0 <= base -> 0 <= factor -> productIsNumber factor base ->
  (forall mx, maxValue = Some mx -> 0 <= mx) ->
  0 < rnd k -> rnd k < 1 ->
  0 <= pull rnd (exponentialGenerator base factor maxValue minValue jitter) k.
Proof.
  intros Hb Hf _ Hmx Hr Hr1. assert (Hr0 : 0 <= rnd k) by lra.
  rewrite pull_exponentialGenerator.
  pose proof (prejitter_is_nonnegative base factor maxValue minValue k
                Hb Hf Hmx) as Hv.
  set (v := deterministicValue base factor maxValue minValue k) in *.
  unfold applyJitter. destruct jitter as [|[|]|j]; try exact Hv.
  - change 0 with (Math_round 0). apply Math_round_le.
    now apply Qmult_le_0_compat.
  - destruct (Qle_bool 0 j && Qle_bool j 1) eqn:B; [|exact Hv].
    apply andb_true_iff in B. destruct B as [B0 B1].
    apply Qle_bool_iff in B0. apply Qle_bool_iff in B1.
    change 0 with (Math_round 0). apply Math_round_le.
    apply Qmult_le_0_compat; [|exact Hv]. nra.
Qed.

Lemma pulled_values_are_nonnegative_witness :
  (0 <= 2 /\ 0 <= 50 /\ productIsNumber 50 2
   /\ (forall mx, Some 1000 = Some mx -> 0 <= mx)
   /\ 0 < halfRandom 5 /\ halfRandom 5 < 1)
  /\ 0 <= pull halfRandom
               (exponentialGenerator 2 50 (Some 1000) None (JNumber (1 # 5))) 5.
Proof.
  assert (H1 : 0 <= 2) by (intros C; discriminate C).
  assert (H2 : 0 <= 50) by (intros C; discriminate C).
  assert (H3 : forall mx, Some 1000 = Some mx -> 0 <= mx).
  { intros mx E. injection E as <-. intros C. discriminate C. }
  assert (H4 : 0 < halfRandom 5) by reflexivity.
  assert (H5 : halfRandom 5 < 1) by reflexivity.
  assert (H6 : productIsNumber 50 2) by (left; intros H; discriminate H).
  split; [now repeat split|].
  exact (pulled_values_are_nonnegative 2 50 (Some 1000) None (JNumber (1 # 5))
           halfRandom 5 H1 H2 H6 H3 H4 H5).
Defined.



(** A numeric jitter outside [[0,1]] is ignored: the value pulled is the
    value before jitter, neither randomized nor rounded, as with
    [jitter = false]. *)
Theorem jitter_out_of_range_is_ignored
    (base factor : Q) (maxValue minValue : option Q) (j : Q)
    (rnd : nat -> Q) (k : nat) :
  j < 0 \/ 1 < j ->
  pull rnd (exponentialGenerator base factor maxValue minValue (JNumber j)) k
  = pull rnd (exponentialGenerator base factor maxValue minValue (JBool false)) k.
Proof.
  intros H. rewrite !pull_exponentialGenerator. unfold applyJitter.
  destruct (Qle_bool 0 j) eqn:B0; [|reflexivity].
  destruct (Qle_bool j 1) eqn:B1; [|reflexivity].
  apply Qle_bool_iff in B0. apply Qle_bool_iff in B1. lra.
Qed.

Lemma jitter_out_of_range_is_ignored_witness :
  ((3 # 2) < 0 \/ 1 < (3 # 2))
  /\ pull halfRandom
          (exponentialGenerator 1 (1 # 2) None None (JNumber (3 # 2))) 0
     = pull halfRandom
            (exponentialGenerator 1 (1 # 2) None None (JBool false)) 0.
Proof.
  assert (H : (3 # 2) < 0 \/ 1 < (3 # 2)) by (right; reflexivity).
  split; [exact H|].
  exact (jitter_out_of_range_is_ignored 1 (1 # 2) None None (3 # 2)
           halfRandom 0 H).
Defined.

(** A jitter of 1 is full jitter: with the draw [r] it yields what
    [jitter = true] yields with the draw [1 - r]. *)
Theorem jitter_one_is_full_jitter
    (base factor : Q) (maxValue minValue : option Q)
    (rnd rnd' : nat -> Q) (k : nat) :
  rnd' k == 1 - rnd k ->
  pull rnd (exponentialGenerator base factor maxValue minValue (JNumber 1)) k
  = pull rnd' (exponentialGenerator base factor maxValue minValue (JBool true)) k.
Proof.
  intros H. rewrite !pull_exponentialGenerator.
  rewrite applyJitter_number by lra. cbn [applyJitter].
  apply Math_round_comp. rewrite H. ring.
Qed.

Lemma jitter_one_is_full_jitter_witness :
  halfRandom 3 == 1 - halfRandom 3
  /\ pull halfRandom
          (exponentialGenerator 2 1 (Some 1000) (Some 0) (JNumber 1)) 3
     = pull halfRandom
            (exponentialGenerator 2 1 (Some 1000) (Some 0) (JBool true)) 3.
Proof.
  assert (H : halfRandom 3 == 1 - halfRandom 3) by reflexivity.
  split; [exact H|].
  exact (jitter_one_is_full_jitter 2 1 (Some 1000) (Some 0)
           halfRandom halfRandom 3 H).
Defined.

(** * Further properties of the retry loop

    [retry] is the loop with an [emit] that returns at every call
    ([retryE_when_emit_returns]); the properties of this part are those of
    such runs. *)

Section Runs.

Context {Result Error Args World : Type}.

Variable maxRetries : Q.
Variable p : option (PredicateFunction Error Args).
Variable f : TargetFunction Result Error Args World.
Variable thisArg : option Receiver.
Variable args : Args.

Local Abbreviation loop := (retryLoop (Result := Result) (World := World)).
Local Abbreviation retried run := (List.length (sleeps (trace run))).

Lemma emitted_emit_same (event : string) (value : Q) :
  emitted event (emit thisArg event f args value)
  = if canEmit thisArg then [value] else [].
Proof.
  unfold emit. destruct (canEmit thisArg); [|reflexivity].
  cbn. now rewrite String.eqb_refl.
Qed.

Lemma worldAfter_S (k : nat) (w : World) :
  worldAfter f thisArg args (S k) w
  = worldAfter f thisArg args k (snd (apply f thisArg args w)).
Proof. reflexivity. Qed.

(** Every run of the loop, read off its trace: [k] sleeps separate [k + 1]
    invocations, the delays are the first [k] pulls of the generator, the
    first [k] invocations threw errors the predicate approved, and the last
    one decides the outcome. *)
Lemma retryLoop_run fuel :
  forall rnd gen numRetries w run,
    loop fuel maxRetries p f thisArg args rnd gen numRetries w = Some run ->
    invocations (trace run) = S (retried run)
    /\ sleeps (trace run) = take rnd gen (retried run)
    /\ emitted "throttle" (trace run)
       = (if canEmit thisArg then take rnd gen (retried run) else [])
    /\ world run = worldAfter f thisArg args (S (retried run)) w
    /\ (forall i, (i < retried run)%nat ->
          exists err, attempt f thisArg args i w = Throws err
                      /\ declines p err args = false)
    /\ (retried run = O
        \/ (numRetries + Z.of_nat (retried run) <= Qfloor maxRetries)%Z)
    /\ match outcome run with
       | Resolved result =>
           attempt f thisArg args (retried run) w = Returns result
           /\ emitted "retries" (trace run)
              = (if canEmit thisArg
                 then [inject_Z (numRetries + Z.of_nat (retried run))]
                 else [])
       | Rejected err =>
           attempt f thisArg args (retried run) w = Throws err
           /\ emitted "retries" (trace run) = []
           /\ (declines p err args = true
               \/ (Qfloor maxRetries
                   < numRetries + Z.of_nat (retried run) + 1)%Z)
       end.
Proof.
  induction fuel as [|fuel IH]; intros rnd gen numRetries w run H;
    [discriminate H|].
  destruct (apply f thisArg args w) as [[result|err] w'] eqn:E.
  - rewrite (retryLoop_succeeded _ _ _ _ _ _ _ _ _ _ _ _ E) in H.
    injection H as <-. cbn [trace outcome world].
    assert (S0 : sleeps (Invoke thisArg args
                         :: emit thisArg "retries" f args (inject_Z numRetries))
                 = []).
    { change (Invoke thisArg args :: ?t) with ([Invoke thisArg args] ++ t)%list.
      now rewrite sleeps_app, sleeps_emit. }
    rewrite S0. cbn [List.length take].
    split.
    { change (Invoke thisArg args :: ?t) with ([Invoke thisArg args] ++ t)%list.
      now rewrite invocations_app, invocations_emit. }
    split; [reflexivity|].
    split.
    { unfold emit. destruct (canEmit thisArg); reflexivity. }
    split; [cbn; now rewrite E|].
    split; [intros i Hi; lia|].
    split; [now left|].
    split; [unfold attempt; cbn; now rewrite E|].
    change (Invoke thisArg args :: ?t) with ([Invoke thisArg args] ++ t)%list.
    rewrite emitted_app, emitted_emit_same, Z.add_0_r. reflexivity.
  - destruct (declines p err args) eqn:D.
    + rewrite (retryLoop_no_retry _ _ _ _ _ _ _ _ _ _ _ _ E D) in H.
      injection H as <-. cbn.
      split; [reflexivity|]. split; [reflexivity|].
      split; [now destruct (canEmit thisArg)|].
      split; [now rewrite E|].
      split; [intros i Hi; lia|].
      split; [now left|].
      split; [unfold attempt; cbn; now rewrite E|].
      split; [reflexivity | now left].
    + destruct (Z_lt_le_dec (Qfloor maxRetries) (numRetries + 1)) as [X|X].
      * rewrite (retryLoop_exhausted _ _ _ _ _ _ _ _ _ _ _ _ E D X) in H.
        injection H as <-. cbn.
        split; [reflexivity|]. split; [reflexivity|].
        split; [now destruct (canEmit thisArg)|].
        split; [now rewrite E|].
        split; [intros i Hi; lia|].
        split; [now left|].
        split; [unfold attempt; cbn; now rewrite E|].
        split; [reflexivity | right; lia].
      * rewrite (retryLoop_waiting _ _ _ _ _ _ _ _ _ _ _ _ E D X) in H.
        assert (TK : forall n,
                   take rnd gen (S n)
                   = fst (next (rnd O) gen)
                     :: take (fun i => rnd (S i)) (snd (next (rnd O) gen)) n).
        { intros n. cbn [take]. now destruct (next (rnd O) gen). }
        set (d := fst (next (rnd O) gen)) in *.
        set (g' := snd (next (rnd O) gen)) in *.
        destruct (loop fuel maxRetries p f thisArg args (fun i => rnd (S i))
                       g' (numRetries + 1)%Z w')
          as [rest|] eqn:R; [|discriminate H].
        injection H as <-. cbn [after trace outcome world app].
        destruct (IH _ _ _ _ _ R) as [Hi [Hs [Ht [Hw [Ha [Hb Ho]]]]]].
        set (tr := (Invoke thisArg args
                    :: (emit thisArg "throttle" f args d ++ [Sleep d])
                       ++ trace rest)%list).
        assert (TR : tr = ([Invoke thisArg args]
                           ++ emit thisArg "throttle" f args d
                           ++ [Sleep d] ++ trace rest)%list).
        { subst tr. cbn [app]. now rewrite <- app_assoc. }
        assert (SL : sleeps tr = d :: sleeps (trace rest)).
        { rewrite TR, !sleeps_app, sleeps_emit. reflexivity. }
        rewrite SL. cbn [List.length].
        split.
        { rewrite TR, !invocations_app, invocations_emit, Hi. reflexivity. }
        split; [rewrite TK; f_equal; exact Hs|].
        split.
        { rewrite TR, !emitted_app, emitted_emit_same, Ht, TK.
          now destruct (canEmit thisArg). }
        split; [rewrite Hw, (worldAfter_S (S (retried rest)) w), E; reflexivity|].
        split.
        { intros [|i] Hlt.
          - exists err. split; [unfold attempt; cbn; now rewrite E | exact D].
          - destruct (Ha i) as [e [A1 A2]]; [lia|].
            exists e. split; [|exact A2].
            unfold attempt. rewrite worldAfter_S, E. exact A1. }
        split.
        { right. destruct Hb as [Z0 | L]; [rewrite Z0|]; lia. }
        assert (RE : emitted "retries" tr = emitted "retries" (trace rest)).
        { rewrite TR, !emitted_app. unfold emit.
          now destruct (canEmit thisArg). }
        rewrite RE.
        destruct (outcome rest) as [result|err'].
        -- destruct Ho as [O1 O2]. split.
           ++ unfold attempt. rewrite worldAfter_S, E. exact O1.
           ++ rewrite O2. destruct (canEmit thisArg); [|reflexivity].
              do 2 f_equal. lia.
        -- destruct Ho as [O1 [O2 O3]]. split; [|split].
           ++ unfold attempt. rewrite worldAfter_S, E. exact O1.
           ++ exact O2.
           ++ destruct O3 as [O3|O3]; [now left | right; lia].
Qed.

End Runs.

Section RetryRuns.

Context {Result Error Args World : Type}.

Variable options : BackoffOptions Error Args.
Variable f : TargetFunction Result Error Args World.
Variable thisArg : option Receiver.
Variable args : Args.
Variable rnd : nat -> Q.
Variable w : World.

Local Abbreviation limit := (orDefault (maxRetries options) 1).

(** [retry] settles, and its run has the shape of [retryLoop_run], from the
    counter 1 and the generator of the options. *)
Lemma retry_run :
  exists run,
    retry options f thisArg args rnd w = Some run
    /\ invocations (trace run) = S (List.length (sleeps (trace run)))
    /\ sleeps (trace run)
       = take rnd (generatorOf options) (List.length (sleeps (trace run)))
    /\ emitted "throttle" (trace run)
       = (if canEmit thisArg then sleeps (trace run) else [])
    /\ world run = worldAfter f thisArg args (invocations (trace run)) w
    /\ (forall i, (S i < invocations (trace run))%nat ->
          exists err, attempt f thisArg args i w = Throws err
                      /\ declines (predicate options) err args = false)
    /\ (Z.of_nat (invocations (trace run)) <= Z.max 1 (Qfloor limit))%Z
    /\ match outcome run with
       | Resolved result =>
           attempt f thisArg args (Nat.pred (invocations (trace run))) w
           = Returns result
           /\ emitted "retries" (trace run)
              = (if canEmit thisArg
                 then [inject_Z (Z.of_nat (invocations (trace run)))]
                 else [])
       | Rejected err =>
           attempt f thisArg args (Nat.pred (invocations (trace run))) w
           = Throws err
           /\ emitted "retries" (trace run) = []
           /\ (declines (predicate options) err args = true
               \/ (Qfloor limit < Z.of_nat (invocations (trace run)) + 1)%Z)
       end.
Proof.
  destruct (retry_settles options f thisArg args rnd w) as [run R].
  exists run. split; [exact R|].
  unfold retry in R. apply retryLoop_run in R.
  fold (generatorOf options) in R.
  destruct R as [Hi [Hs [Ht [Hw [Ha [Hb Ho]]]]]].
  rewrite Hi. cbn [Nat.pred].
  split; [reflexivity|]. split; [exact Hs|].
  split; [rewrite Ht; destruct (canEmit thisArg); [now symmetry | reflexivity]|].
  split; [exact Hw|].
  split; [intros i Hlt; apply Ha; lia|].
  split; [lia|].
  destruct (outcome run) as [result|err].
  - destruct Ho as [O1 O2]. split; [exact O1|].
    rewrite O2. destruct (canEmit thisArg); [|reflexivity].
    do 2 f_equal. lia.
  - destruct Ho as [O1 [O2 O3]]. split; [exact O1|]. split; [exact O2|].
    destruct O3 as [O3|O3]; [now left | right; lia].
Qed.

(** [maxRetries] bounds the attempts of every run: whatever the target and
    the predicate do, [retry] settles after at least one and at most
    [max 1 (floor maxRetries)] invocations (1 when [maxRetries] is absent),
    with exactly one sleep between two consecutive invocations. *)
Theorem attempts_are_bounded :
  exists run,
    retry options f thisArg args rnd w = Some run
    /\ (1 <= invocations (trace run))%nat
    /\ (Z.of_nat (invocations (trace run)) <= Z.max 1 (Qfloor limit))%Z
    /\ List.length (sleeps (trace run)) = Nat.pred (invocations (trace run)).
Proof.
  destruct retry_run as [run [R [Hi [_ [_ [_ [_ [Hb _]]]]]]]].
  exists run. split; [exact R|]. rewrite Hi in *. cbn [Nat.pred].
  split; [lia|]. split; [exact Hb | reflexivity].
Qed.


(** The promise settles as the last invocation ended: it resolves with what
    that invocation returned or rejects with what it threw, every earlier
    invocation threw an error the predicate approved, the target is left in
    the state after exactly these invocations, and a rejection has one of two
    causes: the predicate declined the error, or one more attempt would
    exceed [maxRetries]. *)
Theorem settles_as_the_last_attempt :
  exists run,
    retry options f thisArg args rnd w = Some run
    /\ outcome run
       = settled (attempt f thisArg args
                          (Nat.pred (invocations (trace run))) w)
    /\ world run = worldAfter f thisArg args (invocations (trace run)) w
    /\ (forall i, (S i < invocations (trace run))%nat ->
          exists err, attempt f thisArg args i w = Throws err
                      /\ declines (predicate options) err args = false)
    /\ (forall err, outcome run = Rejected err ->
          declines (predicate options) err args = true
          \/ (Qfloor limit < Z.of_nat (invocations (trace run)) + 1)%Z).
Proof.
  destruct retry_run as [run [R [_ [_ [_ [Hw [Ha [_ Ho]]]]]]]].
  exists run. split; [exact R|].
  split.
  { destruct (outcome run) as [result|err].
    - destruct Ho as [O1 _]. now rewrite O1.
    - destruct Ho as [O1 _]. now rewrite O1. }
  split; [exact Hw|]. split; [exact Ha|].
  intros err Herr. rewrite Herr in Ho. now destruct Ho as [_ [_ O3]].
Qed.

(** ["retries"] is emitted only by a run that resolves and has an emitter,
    exactly once, and then with the number of invocations made; a run that
    rejects emits nothing under that name. *)
Theorem retries_event_counts_the_attempts :
  exists run,
    retry options f thisArg args rnd w = Some run
    /\ emitted "retries" (trace run)
       = match outcome run with
         | Resolved _ =>
             if canEmit thisArg
             then [inject_Z (Z.of_nat (invocations (trace run)))]
             else []
         | Rejected _ => []
         end.
Proof.
  destruct retry_run as [run [R [_ [_ [_ [_ [_ [_ Ho]]]]]]]].
  exists run. split; [exact R|].
  destruct (outcome run); [now destruct Ho | now destruct Ho as [_ [O2 _]]].
Qed.

End RetryRuns.

Section DecisiveAttempt.

Context {Result Error Args World : Type}.

Variable options : BackoffOptions Error Args.
Variable f : TargetFunction Result Error Args World.
Variable thisArg : option Receiver.
Variable args : Args.
Variable rnd : nat -> Q.
Variable w : World.
Variable k : nat.

Hypothesis earlier_attempts_are_retried :
  forall i, (i < k)%nat ->
    exists err, attempt f thisArg args i w = Throws err
                /\ declines (predicate options) err args = false.
Hypothesis attempt_is_decisive :
  forall err, attempt f thisArg args k w = Throws err ->
    declines (predicate options) err args = true.
Hypothesis attempt_is_permitted :
  (Z.of_nat k < Z.max 1 (Qfloor (orDefault (maxRetries options) 1)))%Z.

(** The run ends at the first decisive attempt: when the attempts before the
    [k]-th threw errors the predicate approved, the [k]-th returns or throws
    an error the predicate declines (or there is no predicate), and
    [maxRetries] permits [k + 1] attempts, [retry] settles as the [k]-th
    attempt ended, after exactly [k + 1] invocations and [k] sleeps. *)
Theorem run_ends_at_the_first_decisive_attempt :
  exists run,
    retry options f thisArg args rnd w = Some run
    /\ outcome run = settled (attempt f thisArg args k w)
    /\ invocations (trace run) = S k
    /\ List.length (sleeps (trace run)) = k
    /\ world run = worldAfter f thisArg args (S k) w.
Proof.
  destruct (retry_run options f thisArg args rnd w)
    as [run [R [Hi [_ [_ [Hw [Ha [Hb Ho]]]]]]]].
  exists run. split; [exact R|].
  set (n := invocations (trace run)) in *.
  assert (N : n = S k).
  { destruct (Nat.lt_trichotomy (Nat.pred n) k) as [L | [E | G]].
    - exfalso.
      destruct (earlier_attempts_are_retried (Nat.pred n) L) as [e [A D]].
      rewrite A in Ho. destruct (outcome run) as [result|err].
      + destruct Ho as [O1 _]. discriminate O1.
      + destruct Ho as [O1 [_ O3]]. injection O1 as <-.
        destruct O3 as [O3|O3]; [congruence | lia].
    - lia.
    - exfalso. destruct (Ha k) as [e [A D]]; [lia|].
      rewrite (attempt_is_decisive e A) in D. discriminate D. }
  rewrite N in *. cbn [Nat.pred] in Ho.
  split.
  { destruct (outcome run) as [result|err].
    - destruct Ho as [O1 _]. now rewrite O1.
    - destruct Ho as [O1 _]. now rewrite O1. }
  split; [reflexivity|]. split; [lia | exact Hw].
Qed.

End DecisiveAttempt.

Lemma run_ends_at_the_first_decisive_attempt_witness :
  (forall i, (i < 2)%nat ->
     exists err, attempt (flaky 2) emitter [10] i O = Throws err
                 /\ declines (predicate (optionsOf (Some 5) (Some alwaysTrue)))
                             err [10] = false)
  /\ (forall err, attempt (flaky 2) emitter [10] 2 O = Throws err ->
        declines (predicate (optionsOf (Some 5) (Some alwaysTrue))) err [10]
        = true)
  /\ (Z.of_nat 2
      < Z.max 1 (Qfloor (orDefault
                           (maxRetries
                              (optionsOf (Some 5%Q)
                                 (Some (@alwaysTrue string (list Q))))) 1)))%Z
  /\ exists run,
       retry (optionsOf (Some 5) (Some alwaysTrue)) (flaky 2) emitter [10]
             noRandom O
       = Some run
       /\ outcome run = settled (attempt (flaky 2) emitter [10] 2 O)
       /\ invocations (trace run) = 3%nat
       /\ List.length (sleeps (trace run)) = 2%nat
       /\ world run = worldAfter (flaky 2) emitter [10] 3 O.
Proof.
  assert (H1 : forall i, (i < 2)%nat ->
             exists err, attempt (flaky 2) emitter [10] i O = Throws err
                         /\ declines
                              (predicate (optionsOf (Some 5) (Some alwaysTrue)))
                              err [10] = false).
  { intros i Hi. exists "bar"%string.
    destruct i as [|[|i]]; [split; reflexivity | split; reflexivity | lia]. }
  assert (H2 : forall err, attempt (flaky 2) emitter [10] 2 O = Throws err ->
             declines (predicate (optionsOf (Some 5) (Some alwaysTrue)))
                      err [10] = true).
  { intros err A. discriminate A. }
  assert (H3 : (Z.of_nat 2
                < Z.max 1 (Qfloor (orDefault
                                     (maxRetries
                                        (optionsOf (Some 5%Q)
                                           (Some (@alwaysTrue string (list Q)))))
                                     1)))%Z)
    by reflexivity.
  split; [exact H1|]. split; [exact H2|]. split; [exact H3|].
  exact (run_ends_at_the_first_decisive_attempt
           (optionsOf (Some 5) (Some alwaysTrue)) (flaky 2) emitter [10]
           noRandom O 2 H1 H2 H3).
Defined.

Section NoEmitter.

Context {Result Error Args World : Type}.

Variable f : TargetFunction Result Error Args World.
Variable thisArg : option Receiver.
Variable args : Args.

Hypothesis no_emitter : canEmit thisArg = false.

Lemma retryLoop_emits_nothing limit p fuel :
  forall rnd gen numRetries w run,
    retryLoop fuel limit p f thisArg args rnd gen numRetries w = Some run ->
    filter isEmit (trace run) = [].
Proof.
  induction fuel as [|fuel IH]; intros rnd gen numRetries w run H;
    [discriminate H|].
  cbn [retryLoop] in H.
  destruct (next (rnd O) gen) as [d g'].
  destruct (apply f thisArg args w) as [[result|err] w'].
  - injection H as <-. cbn [trace]. unfold emit. now rewrite no_emitter.
  - destruct (declines p err args); [injection H as <-; reflexivity|].
    destruct (Qgtb (inject_Z (numRetries + 1)) limit);
      [injection H as <-; reflexivity|].
    destruct (retryLoop fuel limit p f thisArg args (fun i => rnd (S i))
                        g' (numRetries + 1)%Z w') as [rest|] eqn:R;
      [|discriminate H].
    injection H as <-. cbn [after trace].
    unfold emit. rewrite no_emitter. cbn [app filter isEmit].
    exact (IH _ _ _ _ _ R).
Qed.

(** Notifications are optional: when [thisArg] is [null] or has no [emit],
    [retry] settles all the same and emits nothing, under any name and
    however the run goes. *)
Theorem nothing_is_emitted_without_an_emitter
    (options : BackoffOptions Error Args) (rnd : nat -> Q) (w : World) :
  exists run,
    retry options f thisArg args rnd w = Some run
    /\ filter isEmit (trace run) = [].
Proof.
  destruct (retry_settles options f thisArg args rnd w) as [run R].
  exists run. split; [exact R|].
  unfold retry in R. now apply retryLoop_emits_nothing in R.
Qed.

End NoEmitter.

Lemma nothing_is_emitted_without_an_emitter_witness :
  canEmit None = false
  /\ exists run,
       retry (optionsOf (Some 3) (Some alwaysTrue)) (flaky 2) None [10]
             noRandom O
       = Some run
       /\ filter isEmit (trace run) = [].
Proof.
  split; [reflexivity|].
  exact (nothing_is_emitted_without_an_emitter (flaky 2) None [10] eq_refl
           (optionsOf (Some 3) (Some alwaysTrue)) noRandom O).
Defined.

(** * The decorators *)

Section DecoratorFacts.

Context {Result Error Args World : Type}.

Variable f : TargetFunction Result Error Args World.
Variable args : Args.
Variable rnd : nat -> Q.
Variable w : World.

(** Without a predicate, and with an [emit] that returns, a decorated method
    is the method itself: decorated
    with [backoffWith(options)] where [options] has no [predicate], a call
    invokes the original once, on the same [this] and arguments, and settles
    as it ended, whatever the other options; the one addition is the
    ["retries"] event with the count 1 when the call succeeds on an
    emitter. *)
Theorem backoffWith_without_predicate_is_transparent
    (options : BackoffOptions Error Args) (this : option Receiver) :
  predicate options = None ->
  backoffWith options f this args rnd w
  = Some (mkRun (settled (fst (apply f this args w)))
                (Invoke this args
                 :: match fst (apply f this args w) with
                    | Returns _ => emit this "retries" f args 1
                    | Throws _ => []
                    end)
                (snd (apply f this args w))).
Proof.
  intros Hp. unfold backoffWith, retry, enoughFuel. rewrite Hp.
  destruct (apply f this args w) as [[result|err] w'] eqn:E.
  - rewrite (retryLoop_succeeded _ _ _ _ _ _ _ _ _ _ _ _ E). reflexivity.
  - rewrite (retryLoop_no_retry _ None _ _ _ _ _ _ _ _ _ _ E eq_refl).
    reflexivity.
Qed.

Section InstanceOptions.

Variable this : Instance Error Args.
Variable options : BackoffOptions Error Args.
Variable pred : PredicateFunction Error Args.

Hypothesis instance_options : backoffOptions this = Some options.
Hypothesis instance_predicate : predicate options = Some pred.
Hypothesis always_approves : forall err a, pred err a = true.
Hypothesis always_fails :
  forall w', exists err, fst (apply f (Some (self this)) args w') = Throws err.


End InstanceOptions.

End DecoratorFacts.

(** The [Decotest] instance of the test of the [backoff] decorator. *)
Example decotest_uses_the_instance_backoffOptions :
  backoff faultyCall
          (Some (mkInstance (mkReceiver true)
                   (Some (mkBackoffOptions (Some 3) (Some 2) (Some 1) None
                            (Some 1) (Some alwaysTrue) JUndefined))))
          [] noRandom O
  = Some (Settles
            (mkRun (Rejected 3%nat)
               [Invoke emitter []; Emit "throttle" "matchingCall" [] 1; Sleep 1;
                Invoke emitter []; Emit "throttle" "matchingCall" [] 2; Sleep 2;
                Invoke emitter []]
               3%nat)).
Proof. vm_compute. reflexivity. Qed.

Lemma backoffWith_without_predicate_is_transparent_witness :
  predicate (optionsOf (Some 5) (@None (PredicateFunction string (list Q))))
  = None
  /\ backoffWith (optionsOf (Some 5) None) (flaky 0) emitter [8] noRandom O
     = Some (mkRun (settled (fst (apply (flaky 0) emitter [8] O)))
                   (Invoke emitter [8]
                    :: match fst (apply (flaky 0) emitter [8] O) with
                       | Returns _ => emit emitter "retries" (flaky 0) [8] 1
                       | Throws _ => []
                       end)
                   (snd (apply (flaky 0) emitter [8] O))).
Proof.
  split; [reflexivity|].
  exact (backoffWith_without_predicate_is_transparent (flaky 0) [8] noRandom O
           (optionsOf (Some 5) None) emitter eq_refl).
Defined.


(** * The earlier revision against the current one *)

Lemma legacy_ceiling_agrees (maxValue : option Q) (value : Q) :
  Legacy.ceiling maxValue value = ceiling maxValue value.
Proof.
  unfold Legacy.ceiling, ceiling. destruct maxValue as [mx|]; [|reflexivity].
  destruct (truthy (Some mx)); [|reflexivity]. cbn [negb orb].
  unfold Qgtb, Qle_bool, Qmin, GenericMinMax.gmin, Qcompare, Z.leb.
  destruct (Qnum mx * QDen value ?= Qnum value * QDen mx)%Z; reflexivity.
Qed.

Lemma legacy_pull_value (g : Generator) :
  forall (k : nat) (rnd : nat -> Q),
    Legacy.pull rnd g k
    = (if Legacy.jitterTruthy (g_jitter g)
       then Math_round
              (rnd k
               * floor (g_minValue g)
                   (ceiling (g_maxValue g)
                      (g_factor g * pow (g_base g) (g_n g + k))))
       else floor (g_minValue g)
              (ceiling (g_maxValue g)
                 (g_factor g * pow (g_base g) (g_n g + k)))).
Proof.
  intros k. revert g.
  induction k as [|k IH]; intros g rnd.
  - cbn [Legacy.pull Legacy.next fst]. unfold Legacy.preJitter.
    now rewrite legacy_ceiling_agrees, Nat.add_0_r.
  - cbn [Legacy.pull]. rewrite IH. cbn [Legacy.next snd g_base g_factor
      g_maxValue g_minValue g_jitter g_n]. now rewrite Nat.add_succ_r.
Qed.

(** The two revisions of the generator yield the same values as long as the
    jitter is a boolean or absent, the bounds do not contradict each other
    (no [minValue] and [maxValue] both other than 0 with
    [minValue > maxValue]), and [factor * base^n] is a number (the factor is
    not 0, or [|base| <= 1]): on [NaN] the comparison of the earlier revision
    and [Math.min] of the current one part. *)
Theorem legacy_generator_agrees
    (base factor : Q) (maxValue minValue : option Q) (jitter : Jitter)
    (rnd : nat -> Q) (k : nat) :
  (forall j, jitter <> JNumber j) ->
  (forall mn mx, minValue = Some mn -> maxValue = Some mx ->
     ~ mn == 0 -> ~ mx == 0 -> mn <= mx) ->
  productIsNumber factor base ->
  Legacy.pull rnd
    (Legacy.exponentialGenerator base factor maxValue minValue jitter) k
  = pull rnd (exponentialGenerator base factor maxValue minValue jitter) k.
Proof.
  intros Hj Hb _. rewrite legacy_pull_value, pull_exponentialGenerator.
  cbn [Legacy.exponentialGenerator g_base g_factor g_maxValue g_minValue
       g_jitter g_n Nat.add].
  assert (E : handleContradiction maxValue minValue = minValue).
  { unfold handleContradiction.
    destruct minValue as [mn|]; [|reflexivity].
    destruct maxValue as [mx|]; [|reflexivity].
    destruct (truthy (Some mn)) eqn:Tn; [|reflexivity].
    destruct (truthy (Some mx)) eqn:Tx; [|reflexivity].
    apply truthy_Some in Tn. apply truthy_Some in Tx.
    pose proof (Hb mn mx eq_refl eq_refl Tn Tx) as L.
    apply Qgtb_false in L. now rewrite L. }
  unfold deterministicValue. rewrite E.
  destruct jitter as [|[|]|j]; try reflexivity.
  now destruct (Hj j).
Qed.

Lemma legacy_generator_agrees_witness :
  (forall j, JBool true <> JNumber j)
  /\ (forall mn mx, Some 10 = Some mn -> Some 32 = Some mx ->
        ~ mn == 0 -> ~ mx == 0 -> mn <= mx)
  /\ productIsNumber 1 2
  /\ Legacy.pull halfRandom
       (Legacy.exponentialGenerator 2 1 (Some 32) (Some 10) (JBool true)) 4
     = pull halfRandom
            (exponentialGenerator 2 1 (Some 32) (Some 10) (JBool true)) 4.
Proof.
  assert (H1 : forall j, JBool true <> JNumber j) by (intros j C; discriminate C).
  assert (H2 : forall mn mx, Some 10 = Some mn -> Some 32 = Some mx ->
                 ~ mn == 0 -> ~ mx == 0 -> mn <= mx).
  { intros mn mx E1 E2 _ _. injection E1 as <-. injection E2 as <-.
    intros C. discriminate C. }
  assert (H3 : productIsNumber 1 2) by (left; intros H; discriminate H).
  split; [exact H1|]. split; [exact H2|]. split; [exact H3|].
  exact (legacy_generator_agrees 2 1 (Some 32) (Some 10) (JBool true)
           halfRandom 4 H1 H2 H3).
Defined.

Section Revisions.

Context {Result Error Args World : Type}.

Variable maxRetries : Q.
Variable p : option (PredicateFunction Error Args).
Variable f : TargetFunction Result Error Args World.
Variable thisArg : option Receiver.
Variable args : Args.


End Revisions.


(** * The first revision of the generator *)

Lemma original_pull_value (g : Original.Generator) :
  forall (k : nat) (rnd : nat -> Q),
    Original.pull rnd g k
    = (if Legacy.jitterTruthy (Original.g_fullJitter g)
       then rnd k * ceiling (Original.g_maxValue g)
                      (Original.g_factor g * pow 2 (Original.g_n g + k))
       else ceiling (Original.g_maxValue g)
              (Original.g_factor g * pow 2 (Original.g_n g + k))).
Proof.
  intros k. revert g.
  induction k as [|k IH]; intros g rnd.
  - cbn [Original.pull Original.next fst].
    now rewrite legacy_ceiling_agrees, Nat.add_0_r.
  - cbn [Original.pull]. rewrite IH. cbn [Original.next snd Original.g_factor
      Original.g_maxValue Original.g_fullJitter Original.g_n].
    now rewrite Nat.add_succ_r.
Qed.

(** Since the first revision the values without jitter have not changed:
    for a [factor] other than 0 (so that [factor * 2^n] is a number),
    [exponentialGenerator(factor, maxValue, false)] of the first revision
    yields what the current
    [exponentialGenerator(2, factor, maxValue, undefined, false)] yields.
    With full jitter the first revision yields the draw times that value,
    not rounded. *)
Theorem original_generator_agrees
    (factor : Q) (maxValue : option Q) (rnd : nat -> Q) (k : nat) :
  ~ factor == 0 ->
  Original.pull rnd (Original.exponentialGenerator factor maxValue (JBool false)) k
  = pull rnd (exponentialGenerator 2 factor maxValue None (JBool false)) k
  /\ Original.pull rnd
       (Original.exponentialGenerator factor maxValue (JBool true)) k
     = rnd k * pull rnd (exponentialGenerator 2 factor maxValue None
                                              (JBool false)) k.
Proof.
  intros _. rewrite !original_pull_value, pull_exponentialGenerator.
  cbn [Original.exponentialGenerator Original.g_factor Original.g_maxValue
       Original.g_fullJitter Original.g_n Legacy.jitterTruthy Nat.add
       applyJitter].
  unfold deterministicValue.
  assert (E : handleContradiction maxValue None = None)
    by (unfold handleContradiction; reflexivity).
  rewrite E. cbn [floor]. split; reflexivity.
Qed.

Lemma original_generator_agrees_witness :
  ~ 50 == 0
  /\ Original.pull halfRandom
       (Original.exponentialGenerator 50 (Some 1000) (JBool false)) 3
     = pull halfRandom
            (exponentialGenerator 2 50 (Some 1000) None (JBool false)) 3
  /\ Original.pull halfRandom
       (Original.exponentialGenerator 50 (Some 1000) (JBool true)) 3
     = halfRandom 3
       * pull halfRandom
              (exponentialGenerator 2 50 (Some 1000) None (JBool false)) 3.
Proof.
  assert (H : ~ 50 == 0) by (intros C; discriminate C).
  split; [exact H|].
  exact (original_generator_agrees 50 (Some 1000) halfRandom 3 H).
Defined.

(** * The loop with an [emit] that may throw *)

Section EmitReturns.

Context {Result Error Args World : Type}.

Variable maxRetries : Q.
Variable p : option (PredicateFunction Error Args).
Variable f : TargetFunction Result Error Args World.
Variable thisArg : option Receiver.
Variable onEmit : EmitFunction Error Args.
Variable args : Args.

Hypothesis emit_returns : emitReturns onEmit.

(** When every call of [emit] returns, the loop is the one of [retryLoop]. *)
Lemma retryLoopE_when_emit_returns fuel :
  forall rnd gen numRetries w,
    retryLoopE fuel maxRetries p f thisArg onEmit args rnd gen numRetries w
    = retryLoop fuel maxRetries p f thisArg args rnd gen numRetries w.
Proof.
  induction fuel as [|fuel IH]; intros rnd gen numRetries w; [reflexivity|].
  cbn [retryLoopE retryLoop].
  destruct (next (rnd O) gen) as [d g'].
  destruct (apply f thisArg args w) as [[result|err] w'];
    unfold tryBlock, emit.
  - destruct (canEmit thisArg); [|reflexivity].
    now rewrite emit_returns.
  - destruct (declines p err args); [reflexivity|].
    destruct (Qgtb (inject_Z (numRetries + 1)) maxRetries); [reflexivity|].
    destruct (canEmit thisArg).
    + rewrite emit_returns, IH. reflexivity.
    + rewrite IH. reflexivity.
Qed.

End EmitReturns.

Lemma retryE_when_emit_returns {Result Error Args World : Type}
    (options : BackoffOptions Error Args)
    (f : TargetFunction Result Error Args World)
    (thisArg : option Receiver) (onEmit : EmitFunction Error Args)
    (args : Args) (rnd : nat -> Q) (w : World) :
  emitReturns onEmit ->
  retryE options f thisArg onEmit args rnd w
  = retry options f thisArg args rnd w.
Proof.
  intros H. unfold retryE, retry.
  now apply retryLoopE_when_emit_returns.
Qed.

(** What a throwing [emit] does to a target that succeeds: the error of
    ["retries"] is caught as if the target had thrown it, so that with an
    approving predicate the target is invoked again. *)
Example throwing_emit_is_retried :
  retryE (optionsOf (Some 2) (Some alwaysTrue)) (flaky 0) emitter
         (fun event _ _ _ =>
            if String.eqb event "retries" then Some "listener"%string
            else None)
         [10] noRandom O
  = Some (mkRun (Rejected "listener"%string)
                [Invoke emitter [10]; Emit "retries" "add" [10] 1;
                 Emit "throttle" "add" [10] 50; Sleep 50;
                 Invoke emitter [10]; Emit "retries" "add" [10] 2]
                2%nat).
Proof. vm_compute. reflexivity. Qed.


(** * A target that fails twice, then succeeds, on an emitter *)


Section RecoveryOnEmitter.

Context {Result Error Args World : Type}.

Variable options : BackoffOptions Error Args.
Variable f : TargetFunction Result Error Args World.
Variable thisArg : option Receiver.
Variable onEmit : EmitFunction Error Args.
Variable args : Args.
Variable pred : PredicateFunction Error Args.
Variable rnd : nat -> Q.
Variable w : World.
Variables (err1 err2 : Error) (result : Result).

Hypothesis first_fails : attempt f thisArg args 0 w = Throws err1.
Hypothesis second_fails : attempt f thisArg args 1 w = Throws err2.
Hypothesis third_succeeds : attempt f thisArg args 2 w = Returns result.
Hypothesis always_approves : forall err a, pred err a = true.
Hypothesis three_attempts : maxRetries options = Some 3.
Hypothesis the_predicate : predicate options = Some pred.
Hypothesis can_emit : canEmit thisArg = true.
Hypothesis emit_returns : emitReturns onEmit.


End RecoveryOnEmitter.

Lemma quietEmit_returns {Error Args : Type} :
  emitReturns (@quietEmit Error Args).
Proof. intros event targetName a value. reflexivity. Qed.


(** * Runs on an emitter whose [emit] returns *)

Section RunsOnEmitter.

Context {Result Error Args World : Type}.

Variable options : BackoffOptions Error Args.
Variable f : TargetFunction Result Error Args World.
Variable thisArg : option Receiver.
Variable onEmit : EmitFunction Error Args.
Variable args : Args.
Variable rnd : nat -> Q.
Variable w : World.

Hypothesis emit_returns : emitReturns onEmit.

(** As long as [emit] returns, the promise settles as the last invocation
    ended: it resolves with what that invocation returned or rejects with
    what it threw, every earlier invocation threw an error the predicate
    approved, the target is left in the state after exactly these
    invocations, and a rejection has one of two causes: the predicate
    declined the error, or one more attempt would exceed [maxRetries]. *)
Theorem run_settles_as_its_last_attempt :
  exists run,
    retryE options f thisArg onEmit args rnd w = Some run
    /\ outcome run
       = settled (attempt f thisArg args
                          (Nat.pred (invocations (trace run))) w)
    /\ world run = worldAfter f thisArg args (invocations (trace run)) w
    /\ (forall i, (S i < invocations (trace run))%nat ->
          exists err, attempt f thisArg args i w = Throws err
                      /\ declines (predicate options) err args = false)
    /\ (forall err, outcome run = Rejected err ->
          declines (predicate options) err args = true
          \/ (Qfloor (orDefault (maxRetries options) 1)
              < Z.of_nat (invocations (trace run)) + 1)%Z).
Proof.
  rewrite (retryE_when_emit_returns options f thisArg onEmit args rnd w
             emit_returns).
  apply settles_as_the_last_attempt.
Qed.

(** As long as [emit] returns, ["retries"] is emitted only by a run that
    resolves and has an emitter, exactly once, and then with the number of
    invocations made; a run that rejects emits nothing under that name. *)
Theorem retries_event_counts_attempts :
  exists run,
    retryE options f thisArg onEmit args rnd w = Some run
    /\ emitted "retries" (trace run)
       = match outcome run with
         | Resolved _ =>
             if canEmit thisArg
             then [inject_Z (Z.of_nat (invocations (trace run)))]
             else []
         | Rejected _ => []
         end.
Proof.
  rewrite (retryE_when_emit_returns options f thisArg onEmit args rnd w
             emit_returns).
  apply retries_event_counts_the_attempts.
Qed.

(** As long as [emit] returns, the run ends at the first decisive attempt:
    when the attempts before the [k]-th threw errors the predicate approved,
    the [k]-th returns or throws an error the predicate declines (or there is
    no predicate), and [maxRetries] permits [k + 1] attempts, [retry] settles
    as the [k]-th attempt ended, after exactly [k + 1] invocations and [k]
    sleeps. *)
Theorem first_decisive_attempt_ends_the_run (k : nat) :
  (forall i, (i < k)%nat ->
     exists err, attempt f thisArg args i w = Throws err
                 /\ declines (predicate options) err args = false) ->
  (forall err, attempt f thisArg args k w = Throws err ->
     declines (predicate options) err args = true) ->
  (Z.of_nat k < Z.max 1 (Qfloor (orDefault (maxRetries options) 1)))%Z ->
  exists run,
    retryE options f thisArg onEmit args rnd w = Some run
    /\ outcome run = settled (attempt f thisArg args k w)
    /\ invocations (trace run) = S k
    /\ List.length (sleeps (trace run)) = k
    /\ world run = worldAfter f thisArg args (S k) w.
Proof.
  intros H1 H2 H3.
  rewrite (retryE_when_emit_returns options f thisArg onEmit args rnd w
             emit_returns).
  now apply run_ends_at_the_first_decisive_attempt.
Qed.

End RunsOnEmitter.

Lemma run_settles_as_its_last_attempt_witness :
  emitReturns (@quietEmit string (list Q))
  /\ exists run,
       retryE (optionsOf (Some 3) (Some alwaysTrue)) (flaky 1) emitter
              quietEmit [10] noRandom O
       = Some run
       /\ outcome run
          = settled (attempt (flaky 1) emitter [10]
                             (Nat.pred (invocations (trace run))) O).
Proof.
  split; [apply quietEmit_returns|].
  destruct (run_settles_as_its_last_attempt
              (optionsOf (Some 3) (Some alwaysTrue)) (flaky 1) emitter
              quietEmit [10] noRandom O quietEmit_returns)
    as [run [R [Ho _]]].
  exists run. split; [exact R | exact Ho].
Defined.

Lemma retries_event_counts_attempts_witness :
  emitReturns (@quietEmit string (list Q))
  /\ exists run,
       retryE (optionsOf (Some 3) (Some alwaysTrue)) (flaky 1) emitter
              quietEmit [10] noRandom O
       = Some run
       /\ emitted "retries" (trace run)
          = match outcome run with
            | Resolved _ =>
                if canEmit emitter
                then [inject_Z (Z.of_nat (invocations (trace run)))]
                else []
            | Rejected _ => []
            end.
Proof.
  split; [apply quietEmit_returns|].
  exact (retries_event_counts_attempts
           (optionsOf (Some 3) (Some alwaysTrue)) (flaky 1) emitter
           quietEmit [10] noRandom O quietEmit_returns).
Defined.

Lemma first_decisive_attempt_ends_the_run_witness :
  emitReturns (@quietEmit string (list Q))
  /\ (forall i, (i < 2)%nat ->
        exists err, attempt (flaky 2) emitter [10] i O = Throws err
                    /\ declines
                         (predicate (optionsOf (Some 5) (Some alwaysTrue)))
                         err [10] = false)
  /\ (forall err, attempt (flaky 2) emitter [10] 2 O = Throws err ->
        declines (predicate (optionsOf (Some 5) (Some alwaysTrue))) err [10]
        = true)
  /\ (Z.of_nat 2
      < Z.max 1 (Qfloor (orDefault
                           (maxRetries
                              (optionsOf (Some 5%Q)
                                 (Some (@alwaysTrue string (list Q))))) 1)))%Z
  /\ exists run,
       retryE (optionsOf (Some 5) (Some alwaysTrue)) (flaky 2) emitter
              quietEmit [10] noRandom O
       = Some run
       /\ outcome run = settled (attempt (flaky 2) emitter [10] 2 O)
       /\ invocations (trace run) = 3%nat
       /\ List.length (sleeps (trace run)) = 2%nat
       /\ world run = worldAfter (flaky 2) emitter [10] 3 O.
Proof.
  assert (H1 : forall i, (i < 2)%nat ->
             exists err, attempt (flaky 2) emitter [10] i O = Throws err
                         /\ declines
                              (predicate (optionsOf (Some 5) (Some alwaysTrue)))
                              err [10] = false).
  { intros i Hi. exists "bar"%string.
    destruct i as [|[|i]]; [split; reflexivity | split; reflexivity | lia]. }
  assert (H2 : forall err, attempt (flaky 2) emitter [10] 2 O = Throws err ->
             declines (predicate (optionsOf (Some 5) (Some alwaysTrue)))
                      err [10] = true).
  { intros err A. discriminate A. }
  assert (H3 : (Z.of_nat 2
                < Z.max 1 (Qfloor (orDefault
                                     (maxRetries
                                        (optionsOf (Some 5%Q)
                                           (Some (@alwaysTrue string (list Q)))))
                                     1)))%Z)
    by reflexivity.
  split; [apply quietEmit_returns|].
  split; [exact H1|]. split; [exact H2|]. split; [exact H3|].
  exact (first_decisive_attempt_ends_the_run
           (optionsOf (Some 5) (Some alwaysTrue)) (flaky 2) emitter quietEmit
           [10] noRandom O quietEmit_returns 2 H1 H2 H3).
Defined.

(** Without a predicate a decorated method is the method itself, as long as
    no [emit] is called: decorated with [backoffWith(options)] where
    [options] has no [predicate], a call that throws, or a call on a [this]
    without [emit], invokes the original once, on the same [this] and
    arguments, and settles as it ended, whatever the other options. *)
Theorem backoffWith_without_predicate_calls_once
    {Result Error Args World : Type}
    (f : TargetFunction Result Error Args World) (args : Args)
    (rnd : nat -> Q) (w : World)
    (options : BackoffOptions Error Args) (this : option Receiver) :
  predicate options = None ->
  canEmit this = false
  \/ (exists err, fst (apply f this args w) = Throws err) ->
  backoffWith options f this args rnd w
  = Some (mkRun (settled (fst (apply f this args w)))
                [Invoke this args]
                (snd (apply f this args w))).
Proof.
  intros Hp Hq.
  rewrite (backoffWith_without_predicate_is_transparent f args rnd w options
             this Hp).
  destruct (fst (apply f this args w)) as [result|err] eqn:E; [|reflexivity].
  destruct Hq as [Hc | [err Herr]]; [|discriminate Herr].
  unfold emit. now rewrite Hc.
Qed.

Lemma backoffWith_without_predicate_calls_once_witness :
  predicate (optionsOf (Some 5) (@None (PredicateFunction string (list Q))))
  = None
  /\ (canEmit None = false
      \/ exists err, fst (apply (flaky 0) None [8] O) = Throws err)
  /\ backoffWith (optionsOf (Some 5) None) (flaky 0) None [8] noRandom O
     = Some (mkRun (settled (fst (apply (flaky 0) None [8] O)))
                   [Invoke None [8]]
                   (snd (apply (flaky 0) None [8] O))).
Proof.
  assert (H : canEmit None = false
              \/ exists err, fst (apply (flaky 0) None [8] O) = Throws err)
    by (left; reflexivity).
  split; [reflexivity|]. split; [exact H|].
  exact (backoffWith_without_predicate_calls_once (flaky 0) [8] noRandom O
           (optionsOf (Some 5) None) None eq_refl H).
Defined.
